(** * viewproxy: route matching, the fetch multiplexer and the response
    assembler, embedded from the Go sources.

    Go strings are byte sequences and are modelled as [string]; [[]byte]
    is [list byte]; Go maps with string keys are [gmap string _];
    a Go panic is an explicit outcome of the [go] type. *)

From Stdlib Require Import ZArith Lia Ascii String.
From Stdlib.Strings Require Import Byte.
From stdpp Require Import base option list gmap strings sorting.

Local Open Scope string_scope.
Local Open Scope list_scope.
Local Open Scope Z_scope.

(** ** Go runtime conventions *)

(** A computation that either returns or panics (index out of range,
    nil dereference). *)
Inductive go (A : Type) : Type :=
| Ret (a : A)
| Panic (msg : string).
Arguments Ret {A} a.
Arguments Panic {A} msg.

#[global] Instance go_ret : MRet go := fun A a => Ret a.
#[global] Instance go_bind : MBind go := fun A B k m =>
  match m with
  | Ret a => k a
  | Panic msg => Panic msg
  end.

(** A Go slice value: [nil] is distinguished from an allocated slice of
    length zero ([make([]T, 0)]). *)
Inductive slice (A : Type) : Type :=
| SliceNil
| SliceOf (elems : list A).
Arguments SliceNil {A}.
Arguments SliceOf {A} elems.

Definition elems_of {A} (s : slice A) : list A :=
  match s with
  | SliceNil => []
  | SliceOf l => l
  end.

Definition is_nil_slice {A} (s : slice A) : bool :=
  match s with
  | SliceNil => true
  | SliceOf _ => false
  end.

(** ** package strings *)

Module go_strings.

(** [strings.Split(s, sep)] for a one-byte separator: the pieces between
    successive separators; an input without separator is returned whole,
    so the result is never empty. *)
Fixpoint Split (s : string) (sep : ascii) : list string :=
  match s with
  | EmptyString => [EmptyString]
  | String c s' =>
      if Ascii.eqb c sep then EmptyString :: Split s' sep
      else match Split s' sep with
           | [] => [String c EmptyString]
           | piece :: pieces => String c piece :: pieces
           end
  end.

(** [strings.HasPrefix(s, prefix)]. *)
Definition HasPrefix (s prefix : string) : bool := String.prefix prefix s.

(** The slice expression [s[1:]]; Go panics when [s] is empty. *)
Definition from1 (s : string) : go string :=
  match s with
  | EmptyString => Panic "slice bounds out of range"
  | String _ s' => Ret s'
  end.

(** [strings.Join(elems, sep)] for a one-byte separator. *)
Fixpoint Join (elems : list string) (sep : ascii) : string :=
  match elems with
  | [] => EmptyString
  | [piece] => piece
  | piece :: elems' => piece +:+ String sep (Join elems' sep)
  end.

End go_strings.

(** ** package viewproxy: routes (route.go) *)

Module viewproxy_route.

(** [Fragment] is declared outside the files at hand; route_test.go shows
    its three fields. *)
Record Fragment := mkFragment {
  Path : string;
  Url : string;
  Metadata : gmap string string
}.

Definition NewFragment (path : string) : Fragment :=
  {| Path := path; Url := ""; Metadata := ∅ |}.

Record Route := mkRoute {
  Parts : list string;
  Layout : Fragment;
  fragments : list Fragment
}.

Definition newRoute (path : string) (layout : Fragment)
    (frags : list Fragment) : Route :=
  {| Parts := go_strings.Split path "/"; Layout := layout; fragments := frags |}.

(** The loop of [matchParts], entered once both lengths are known to be
    equal: the first position where the route part differs from the path
    part and is not a parameter ends the loop with [false]. *)
Fixpoint matchParts_loop (parts pathParts : list string) : bool :=
  match parts, pathParts with
  | p :: parts', s :: pathParts' =>
      if negb (String.eqb p s) && negb (go_strings.HasPrefix p ":")
      then false
      else matchParts_loop parts' pathParts'
  | _, _ => true
  end.

Definition matchParts (r : Route) (pathParts : list string) : bool :=
  if negb (Nat.eqb (length (Parts r)) (length pathParts)) then false
  else matchParts_loop (Parts r) pathParts.

(** The loop of [parametersFor]. [pathParts[i]] is read only at parameter
    positions; reading past the end of [pathParts] panics. *)
Fixpoint parametersFor_loop (parts pathParts : list string)
    (parameters : gmap string string) : go (gmap string string) :=
  match parts with
  | [] => Ret parameters
  | p :: parts' =>
      if go_strings.HasPrefix p ":" then
        paramName ← go_strings.from1 p;
        match pathParts with
        | [] => Panic "index out of range"
        | s :: _ =>
            parametersFor_loop parts' (tail pathParts)
              (<[paramName := s]> parameters)
        end
      else parametersFor_loop parts' (tail pathParts) parameters
  end.

Definition parametersFor (r : Route) (pathParts : list string)
    : go (gmap string string) :=
  parametersFor_loop (Parts r) pathParts ∅.

(** The loop of [FragmentsToRequest]: slot [i+1] receives the [i]-th
    fragment. *)
Fixpoint FragmentsToRequest_loop (i : nat) (frags : list Fragment)
    (slots : list (option Fragment)) : list (option Fragment) :=
  match frags with
  | [] => slots
  | fragment :: frags' =>
      FragmentsToRequest_loop (S i) frags' (<[(i + 1)%nat := Some fragment]> slots)
  end.

(** [FragmentsToRequest]: a slice of [len(r.fragments)+1] nil pointers
    ([None]), slot zero set to the layout, then the loop. Every index the
    code writes is within the slice. *)
Definition FragmentsToRequest (r : Route) : list (option Fragment) :=
  let slots := replicate (length (fragments r) + 1) None in
  let slots := <[0%nat := Some (Layout r)]> slots in
  FragmentsToRequest_loop 0 (fragments r) slots.

(** [Server.matchingRoute] (response_builder.go): the route table is
    scanned in registration order; [None] is the [nil, nil] return. *)
Fixpoint matchingRoute_loop (routes : list Route) (parts : list string)
    : go (option (Route * gmap string string)) :=
  match routes with
  | [] => Ret None
  | route :: routes' =>
      if matchParts route parts then
        parameters ← parametersFor route parts;
        Ret (Some (route, parameters))
      else matchingRoute_loop routes' parts
  end.

Definition matchingRoute (routes : list Route) (path : string)
    : go (option (Route * gmap string string)) :=
  matchingRoute_loop routes (go_strings.Split path "/").

End viewproxy_route.

(** ** Bytes, decimal formatting and hexadecimal encoding *)

Definition bytes_of (s : string) : list byte := list_byte_of_string s.
Definition string_of (b : list byte) : string := string_of_list_byte b.

Definition byte_to_Z (b : byte) : Z := Z.of_N (Byte.to_N b).
Definition byte_of_Z (z : Z) : byte :=
  default x00 (Byte.of_N (Z.to_N (z mod 256))).

Module fmt.

Definition digit (d : Z) : ascii := ascii_of_N (Z.to_N (48 + d)).

(** The decimal digits of a positive number, most significant first;
    [fuel] bounds the number of digits. *)
Fixpoint digits (fuel : nat) (n : Z) (acc : string) : string :=
  match fuel with
  | O => acc
  | S fuel' =>
      let acc' := String (digit (n mod 10)) acc in
      if n <? 10 then acc' else digits fuel' (n / 10) acc'
  end.

(** [fmt.Sprintf("%d", n)] for an [int64]. *)
Definition Sprintf_d (n : Z) : string :=
  if n <? 0 then String "-" (digits 20 (- n) "") else digits 20 n "".

End fmt.

Module hex.

Definition hextable : string := "0123456789abcdef".

Definition nibble (n : Z) : ascii :=
  default "0"%char (String.get (Z.to_nat n) hextable).

(** [hex.EncodeToString]: two lower-case digits per byte. *)
Fixpoint EncodeToString (src : list byte) : string :=
  match src with
  | [] => ""
  | b :: src' =>
      let v := byte_to_Z b in
      String (nibble (Z.shiftr v 4))
        (String (nibble (Z.land v 15)) (EncodeToString src'))
  end.

End hex.

(** ** crypto/sha256 and crypto/hmac

    SHA-256 after FIPS 180-4 on 32-bit words held in [Z]; the round
    constants are derived from the primes the standard derives them from. *)

Module sha256.

Definition mask32 : Z := 2 ^ 32 - 1.
Definition w32 (x : Z) : Z := Z.land x mask32.
Definition add32 (x y : Z) : Z := w32 (x + y).
Definition rotr (n x : Z) : Z :=
  Z.lor (Z.shiftr x n) (w32 (Z.shiftl x (32 - n))).

Definition Ch (x y z : Z) : Z :=
  Z.lxor (Z.land x y) (Z.land (Z.lxor x mask32) z).
Definition Maj (x y z : Z) : Z :=
  Z.lxor (Z.lxor (Z.land x y) (Z.land x z)) (Z.land y z).
Definition bsig0 (x : Z) : Z :=
  Z.lxor (Z.lxor (rotr 2 x) (rotr 13 x)) (rotr 22 x).
Definition bsig1 (x : Z) : Z :=
  Z.lxor (Z.lxor (rotr 6 x) (rotr 11 x)) (rotr 25 x).
Definition ssig0 (x : Z) : Z :=
  Z.lxor (Z.lxor (rotr 7 x) (rotr 18 x)) (Z.shiftr x 3).
Definition ssig1 (x : Z) : Z :=
  Z.lxor (Z.lxor (rotr 17 x) (rotr 19 x)) (Z.shiftr x 10).

Definition primes64 : list Z :=
  [2; 3; 5; 7; 11; 13; 17; 19; 23; 29; 31; 37; 41; 43; 47; 53;
   59; 61; 67; 71; 73; 79; 83; 89; 97; 101; 103; 107; 109; 113; 127; 131;
   137; 139; 149; 151; 157; 163; 167; 173; 179; 181; 191; 193; 197; 199;
   211; 223; 227; 229; 233; 239; 241; 251; 257; 263; 269; 271; 277; 281;
   283; 293; 307; 311].

(** Integer cube root by bisection on the bits of the result. *)
Fixpoint icbrt_bits (bits : nat) (n r : Z) : Z :=
  match bits with
  | O => r
  | S b =>
      let c := r + 2 ^ Z.of_nat b in
      icbrt_bits b n (if c * c * c <=? n then c else r)
  end.
Definition icbrt (n : Z) : Z := icbrt_bits 40 n 0.

(** First 32 bits of the fractional part of the square (cube) root. *)
Definition frac_sqrt (p : Z) : Z := w32 (Z.sqrt (p * 2 ^ 64)).
Definition frac_cbrt (p : Z) : Z := w32 (icbrt (p * 2 ^ 96)).

Definition H0 : list Z := Eval vm_compute in map frac_sqrt (take 8 primes64).
Definition K : list Z := Eval vm_compute in map frac_cbrt primes64.

(** Big-endian encoding of [n] on [len] bytes. *)
Fixpoint be_bytes (len : nat) (n : Z) : list Z :=
  match len with
  | O => []
  | S len' => Z.land (Z.shiftr n (8 * Z.of_nat len')) 255 :: be_bytes len' n
  end.

Definition pad (msg : list Z) : list Z :=
  let l := Z.of_nat (length msg) in
  let zeros := Z.to_nat ((55 - l) mod 64) in
  msg ++ [128] ++ replicate zeros 0 ++ be_bytes 8 (8 * l).

Fixpoint be_word (bs : list Z) (acc : Z) : Z :=
  match bs with
  | [] => acc
  | b :: bs' => be_word bs' (Z.lor (Z.shiftl acc 8) b)
  end.

(** The words of a block, four bytes each. *)
Fixpoint words (n : nat) (bs : list Z) : list Z :=
  match n with
  | O => []
  | S n' => be_word (take 4 bs) 0 :: words n' (drop 4 bs)
  end.

Definition nthw (l : list Z) (i : nat) : Z := nth i l 0.

(** Message schedule: [W] grows from 16 to 64 words. *)
Fixpoint schedule (steps : nat) (W : list Z) : list Z :=
  match steps with
  | O => W
  | S steps' =>
      let t := length W in
      let wt := add32 (add32 (ssig1 (nthw W (t - 2))) (nthw W (t - 7)))
                      (add32 (ssig0 (nthw W (t - 15))) (nthw W (t - 16))) in
      schedule steps' (W ++ [wt])
  end.

Record regs := Regs { ra : Z; rb : Z; rc : Z; rd : Z;
                      re : Z; rf : Z; rg : Z; rh : Z }.

Definition round (s : regs) (kw : Z * Z) : regs :=
  let t1 := add32 (add32 (add32 (rh s) (bsig1 (re s)))
                         (add32 (Ch (re s) (rf s) (rg s)) (fst kw)))
                  (snd kw) in
  let t2 := add32 (bsig0 (ra s)) (Maj (ra s) (rb s) (rc s)) in
  Regs (add32 t1 t2) (ra s) (rb s) (rc s) (add32 (rd s) t1) (re s) (rf s) (rg s).

Definition regs_of (h : list Z) : regs :=
  Regs (nthw h 0) (nthw h 1) (nthw h 2) (nthw h 3)
       (nthw h 4) (nthw h 5) (nthw h 6) (nthw h 7).

Definition compress (h : list Z) (block : list Z) : list Z :=
  let W := schedule 48 (words 16 block) in
  let s := fold_left round (zip K W) (regs_of h) in
  zip_with add32 h [ra s; rb s; rc s; rd s; re s; rf s; rg s; rh s].

Fixpoint blocks (n : nat) (h : list Z) (bs : list Z) : list Z :=
  match n with
  | O => h
  | S n' => blocks n' (compress h (take 64 bs)) (drop 64 bs)
  end.

Definition Sum256_Z (msg : list Z) : list Z :=
  let padded := pad msg in
  let h := blocks (length padded / 64) H0 padded in
  concat (map (be_bytes 4) h).

Definition Sum256 (msg : list byte) : list byte :=
  map byte_of_Z (Sum256_Z (map byte_to_Z msg)).

End sha256.

Module hmac.

Definition BlockSize : nat := 64.

Definition xor_pad (c : Z) (key : list byte) : list byte :=
  map (fun b => byte_of_Z (Z.lxor (byte_to_Z b) c)) key.

(** [hmac.New(sha256.New, key)] followed by [Write(msg)] and [Sum(nil)]:
    a key longer than the block is hashed first, then padded with zero
    bytes to the block size. *)
Definition Sum (key msg : list byte) : list byte :=
  let key0 := if (BlockSize <? length key)%nat then sha256.Sum256 key else key in
  let key1 := key0 ++ replicate (BlockSize - length key0) x00 in
  sha256.Sum256 (xor_pad 92 key1 ++ sha256.Sum256 (xor_pad 54 key1 ++ msg)).

End hmac.

(** ** Library functions the sources call

    [net/url] and [compress/gzip] are not part of the repository; the code
    is verified against any implementation of them. *)

Module net_url.
(** [url.URL], as far as the sources read and write it: what precedes the
    path (scheme and authority), the path and the raw query. *)
Record URL := mkURL { Prefix : string; Path : string; RawQuery : string }.
End net_url.

Class StdLib := {
  (** [url.Parse]; [None] is its error return, which leaves the URL pointer
      nil. *)
  url_Parse : string -> option net_url.URL;
  (** The [String] method of [url.URL]. *)
  url_String : net_url.URL -> string;
  (** [url.Values.Encode]. *)
  Values_Encode : gmap string (list string) -> string;
  (** [gzip.NewReader] reads the member header and fails on a malformed
      one; [ioutil.ReadAll] on the reader returns the bytes inflated so far
      together with the message of the error that stopped it, if any. *)
  gzipReader : Type;
  gzip_NewReader : list byte -> string + gzipReader;
  gzip_ReadAll : gzipReader -> list byte * option string;
  (** [strings.ToLower]: every Unicode letter mapped to its lower case. *)
  ToLower : string -> string
}.

(** ** net/http values *)

Module http.

(** [http.Header]: a map from (canonical) header names to their values.
    Every name the sources pass to [Get] and [Set] is already in
    canonical form, so canonicalisation is the identity on them. *)
Abbreviation Header := (gmap string (list string)).

Definition Get (h : Header) (key : string) : string :=
  match h !! key with
  | Some (v :: _) => v
  | _ => ""
  end.

Definition Set_ (h : Header) (key value : string) : Header :=
  <[key := [value]]> h.

Definition Add (h : Header) (key value : string) : Header :=
  <[key := default [] (h !! key) ++ [value]]> h.

(** What the code reads of an [*http.Response]: [ioutil.ReadAll(resp.Body)]
    returns [RawBody] together with the message of the read error that
    stopped it, if any. *)
Record Response := mkResponse {
  RespStatusCode : Z;
  RespHeader : Header;
  RawBody : list byte;
  BodyReadError : option string
}.

End http.

(** ** package multiplexer (pkg/server/server.go, second part) *)

Module multiplexer.

Record fragment := mkfragment {
  url : string;
  metadata : gmap string string
}.

Record Result := mkResult {
  Url : string;
  Duration : Z;
  HttpResponse : http.Response;
  Body : list byte;
  StatusCode : Z
}.

(** The [error] values that reach the caller: [ResultError] wraps the
    result of a non-2xx response; [DeadlineExceeded] is what [ctx.Err()]
    returns once the deadline has passed and [Canceled] what it returns
    once the caller has cancelled the context it passed in; every error
    made by net/http, compress/gzip or io is a [LibraryError]. *)
Inductive error :=
| ResultError (result : Result)
| DeadlineExceeded
| Canceled
| LibraryError (msg : string).

(** The answer of [http.NewRequestWithContext] followed by [client.Do]
    for a method, URL and header set, when it is not cancelled.
    Redirects are not followed, so this is the first response. *)
Definition RoundTripper : Type :=
  string -> string -> http.Header -> error + http.Response.

Record Request := mkRequest {
  Header : http.Header;
  layoutURL : string;
  fragments : list fragment;
  Timeout : Z;
  HmacSecret : string;
  Non2xxErrors : bool;
  Transport : RoundTripper
}.

Definition NewRequest (transport : RoundTripper) : Request :=
  {| Header := ∅; layoutURL := ""; fragments := [];
     Timeout := 10 * 1000000000; HmacSecret := "";
     Non2xxErrors := true; Transport := transport |}.

Definition WithFragment (r : Request) (fragmentURL : string)
    (meta : gmap string string) : Request :=
  {| Header := Header r; layoutURL := layoutURL r;
     fragments := fragments r ++ [mkfragment fragmentURL meta];
     Timeout := Timeout r; HmacSecret := HmacSecret r;
     Non2xxErrors := Non2xxErrors r; Transport := Transport r |}.

#[global] Instance Result_inhabited : Inhabited Result :=
  populate {| Url := ""; Duration := 0;
              HttpResponse := http.mkResponse 0 ∅ [] None;
              Body := []; StatusCode := 0 |}.

(** The two return shapes of [fetchUrl]: [(result, nil)] and
    [(nil, err)]. *)
Inductive fetched :=
| Fetched (result : Result)
| Failed (err : error).

Section WithLibraries.

Context {lib : StdLib}.

(** The body-reading part of [fetchUrl]: the decoded body, or the
    message of the error that is returned. The [err] declared by
    [gzipReader, err := gzip.NewReader(resp.Body)] lives in the block of
    the [if]; the assignment [responseBody, err = ioutil.ReadAll(gzipReader)]
    writes that inner variable, so the [if err != nil] after the block
    tests the outer [err], which is still the nil of [client.Do]. The
    [else] branch assigns the outer [err]. *)
Definition read_body (resp : http.Response) : string + list byte :=
  if String.eqb (http.Get (http.RespHeader resp) "Content-Encoding") "gzip"
  then match gzip_NewReader (http.RawBody resp) with
       | inl msg => inl msg
       | inr rd =>
           let '(responseBody, _inner_err) := gzip_ReadAll rd in
           inr responseBody
       end
  else match http.BodyReadError resp with
       | Some msg => inl msg
       | None => inr (http.RawBody resp)
       end.

(** The end of [fetchUrl]: under [Non2xxErrors] a status outside
    200..299 turns the result into a [ResultError]. *)
Definition check_status (r : Request) (result : Result) : fetched :=
  if Non2xxErrors r
     && ((StatusCode result <? 200) || (StatusCode result >? 299))
  then Failed (ResultError result)
  else Fetched result.

(** [Request.fetchUrl]; [duration] is [time.Since(start)]. *)
Definition fetchUrl (r : Request) (duration : Z) (method url_ : string)
    (headers : http.Header) : fetched :=
  match Transport r method url_ headers with
  | inl err => Failed err
  | inr resp =>
      match read_body resp with
      | inl msg => Failed (LibraryError msg)
      | inr responseBody =>
          check_status r
            {| Url := url_; Duration := duration; HttpResponse := resp;
               Body := responseBody;
               StatusCode := http.RespStatusCode resp |}
      end
  end.

(** [Request.DoSingle]. *)
Definition DoSingle (r : Request) (duration : Z) (method url_ : string)
    : fetched :=
  fetchUrl r duration method url_ (Header r).

(** [pathFromFullUrl]; the error of [url.Parse] is dropped, so a URL
    that does not parse is a nil dereference. *)
Definition pathFromFullUrl (fullUrl : string) : go string :=
  match url_Parse fullUrl with
  | None => Panic "nil pointer dereference"
  | Some targetUrl =>
      if negb (String.eqb (net_url.RawQuery targetUrl) "")
      then Ret (net_url.Path targetUrl +:+ "?" +:+ net_url.RawQuery targetUrl)
      else Ret (net_url.Path targetUrl)
  end.

(** What [pathFromFullUrl] returns for a URL that parses as [u]. *)
Definition signed_path (u : net_url.URL) : string :=
  if String.eqb (net_url.RawQuery u) "" then net_url.Path u
  else net_url.Path u +:+ "?" +:+ net_url.RawQuery u.

(** [Request.headersWithHmac]; [now] is [time.Now().Unix()]. *)
Definition headersWithHmac (r : Request) (now : Z) (url_ : string)
    : go http.Header :=
  let newHeaders : http.Header :=
    map_fold (fun name value acc => <[name := value]> acc) ∅ (Header r) in
  let timestamp := fmt.Sprintf_d now in
  path ← pathFromFullUrl url_;
  let mac := hmac.Sum (bytes_of (HmacSecret r))
                      (bytes_of (path +:+ "," +:+ timestamp)) in
  let newHeaders := http.Set_ newHeaders "Authorization"
                              (hex.EncodeToString mac) in
  let newHeaders := http.Set_ newHeaders "X-Authorization-Time" timestamp in
  Ret newHeaders.

(** [indexOfResult]: the first index whose fragment has the URL of the
    result, [-1] when there is none. *)
Fixpoint indexOfResult_from (i : Z) (frags : list fragment)
    (result : Result) : Z :=
  match frags with
  | [] => -1
  | f :: frags' =>
      if String.eqb (url f) (Url result) then i
      else indexOfResult_from (i + 1) frags' result
  end.

Definition indexOfResult (frags : list fragment) (result : Result) : Z :=
  indexOfResult_from 0 frags result.

(** [sort.SliceStable(x, less)]: elements come out in non-decreasing
    order of [less], equal elements in their original order. Insertion
    from the right computes that order. *)
Fixpoint stable_insert {A} (less : A -> A -> bool) (x : A) (l : list A)
    : list A :=
  match l with
  | [] => [x]
  | y :: l' => if less y x then y :: stable_insert less x l'
               else x :: y :: l'
  end.

Fixpoint SliceStable {A} (less : A -> A -> bool) (l : list A) : list A :=
  match l with
  | [] => []
  | x :: l' => stable_insert less x (SliceStable less l')
  end.

(** *** The goroutines of [Do]

    What the supervising goroutine observes while it waits in [select]:
    fetch task [i] ran to its last statement, the timer of
    [context.WithTimeout] fired, or the caller cancelled the context it
    passed to [Do]. The order of the events is the scheduler's, the
    network's and the caller's choice. *)
Inductive event :=
| Finished (i : nat)
| DeadlineElapsed
| CallerCancelled.

#[global] Instance event_eq_dec : EqDecision event.
Proof. solve_decision. Defined.

Record World := mkWorld {
  now : nat -> Z;            (* [time.Now().Unix()] as read by task [i] *)
  elapsed : nat -> Z;        (* [time.Since(start)] as read by task [i] *)
  trace : list event;
  (* [done] and [ctx.Done()] both ready on entry to [select]: whether the
     runtime's pseudo-random choice falls on [done] *)
  select_picks_done : bool
}.

Inductive task_outcome :=
| TaskOk (result : Result)
| TaskErr (err : error)
| TaskPanic (msg : string).

(** [headersForRequest] in the goroutine of fragment [f], the [i]-th. *)
Definition task_headers (r : Request) (w : World) (i : nat) (f : fragment)
    : go http.Header :=
  if negb (String.eqb (HmacSecret r) "")
  then headersWithHmac r (now w i) (url f)
  else Ret (Header r).

(** The body of the goroutine started for fragment [f], the [i]-th. *)
Definition run_task (r : Request) (w : World) (i : nat) (f : fragment)
    : task_outcome :=
  match task_headers r w i f with
  | Panic msg => TaskPanic msg
  | Ret headers =>
      match fetchUrl r (elapsed w i) "GET" (url f) headers with
      | Fetched result => TaskOk result
      | Failed err => TaskErr err
      end
  end.

Inductive outcome :=
| Returned (results : slice Result) (err : option error)
| Blocked
| Crashed (msg : string).

(** The [done] case of the [select]: [len(r.fragments)] results are
    received from [resultsCh] and sorted. *)
Definition collect (r : Request) (resultsCh : list Result) : outcome :=
  let n := length (fragments r) in
  if (length resultsCh <? n)%nat then Blocked
  else
    let results := take n resultsCh in
    Returned
      (SliceOf (SliceStable
         (fun x y => indexOfResult (fragments r) x
                     <? indexOfResult (fragments r) y) results))
      None.

(** The supervising goroutine parked in [select]. [wg] is the counter of
    the wait group and [resultsCh] the content of the buffered channel.
    A task that succeeds sends its result and calls [wg.Done()]; a task
    that fails blocks on the unbuffered [errCh] until the supervisor
    receives from it, so it has not called [wg.Done()] when its error
    is taken. [done] is closed when [wg] reaches zero. *)
Fixpoint supervise (r : Request) (w : World) (wg : nat)
    (resultsCh : list Result) (events : list event) : outcome :=
  match wg with
  | O => collect r resultsCh
  | S wg' =>
      match events with
      | [] => Blocked
      | DeadlineElapsed :: _ => Returned (SliceOf []) (Some DeadlineExceeded)
      | CallerCancelled :: _ => Returned (SliceOf []) (Some Canceled)
      | Finished i :: events' =>
          match fragments r !! i with
          | None => supervise r w wg resultsCh events'
          | Some f =>
              match run_task r w i f with
              | TaskOk result =>
                  supervise r w wg' (resultsCh ++ [result]) events'
              | TaskErr err => Returned (SliceOf []) (Some err)
              | TaskPanic msg => Crashed msg
              end
          end
      end
  end.

(** [Request.Do]. The context the caller passes is live when [Do] is
    entered. A timeout that is not positive makes [context.WithTimeout]
    return a context that is already done; then [done] can only compete
    with it when there is no fragment to wait for. With fragments and a
    positive timeout the supervisor reaches [select] before any fetch
    task has completed, and from then on it reacts to the first event of
    the trace. With no fragment the counter is at zero from the start,
    and [done] is closed by a goroutine that runs beside the supervisor:
    a trace that begins with the end of the context is a run in which the
    timer fired, or the caller cancelled, before that goroutine had closed
    [done], as a timeout of a nanosecond makes it. *)
Definition Do (r : Request) (w : World) : outcome :=
  let n := length (fragments r) in
  if Timeout r <=? 0 then
    if (n =? 0)%nat && select_picks_done w then collect r []
    else Returned (SliceOf []) (Some DeadlineExceeded)
  else
    match n, trace w with
    | O, DeadlineElapsed :: _ => Returned (SliceOf []) (Some DeadlineExceeded)
    | O, CallerCancelled :: _ => Returned (SliceOf []) (Some Canceled)
    | _, _ => supervise r w n [] (trace w)
    end.

(** The fetch tasks that [Do] starts, one per fragment, in order. *)
Definition launched (r : Request) : list string := url <$> fragments r.

(** *** Vocabulary for traces *)

(** What an event puts into [resultsCh]: the result of task [i] when
    the event is its successful completion. *)
Definition event_result (r : Request) (w : World) (e : event)
    : option Result :=
  match e with
  | Finished i =>
      match fragments r !! i with
      | Some f => match run_task r w i f with
                  | TaskOk result => Some result
                  | _ => None
                  end
      | None => None
      end
  | DeadlineElapsed | CallerCancelled => None
  end.

(** The results sent by a run of events that are all successful
    completions; [None] when one of them is not. *)
Fixpoint arrivals (r : Request) (w : World) (events : list event)
    : option (list Result) :=
  match events with
  | [] => Some []
  | e :: events' =>
      match event_result r w e, arrivals r w events' with
      | Some result, Some results => Some (result :: results)
      | _, _ => None
      end
  end.

(** The supervisor is still waiting when the deadline fires: the
    context was born expired and there is something to wait for, or the
    timer fires after successful completions of only some tasks. *)
Definition deadline_first (r : Request) (w : World) : Prop :=
  (Timeout r <= 0 /\ fragments r <> [])
  \/ (0 < Timeout r /\
      exists pre post results,
        trace w = pre ++ DeadlineElapsed :: post /\
        arrivals r w pre = Some results /\
        (length pre < length (fragments r))%nat).

Definition result_urls (o : outcome) : option (list string) :=
  match o with
  | Returned results None => Some (Url <$> elems_of results)
  | _ => None
  end.

End WithLibraries.

End multiplexer.

(** ** package bytes *)

Module go_bytes.

Fixpoint HasPrefix (s prefix : list byte) : bool :=
  match prefix, s with
  | [], _ => true
  | p :: prefix', c :: s' => Byte.eqb p c && HasPrefix s' prefix'
  | _ :: _, [] => false
  end.

(** [bytes.Replace(s, old, new, 1)]: the first instance of [old] in [s]
    is replaced by [new]; [s] is returned as it is when there is none. *)
Fixpoint Replace1 (s old new : list byte) : list byte :=
  if HasPrefix s old then new ++ drop (length old) s
  else match s with
       | [] => []
       | c :: s' => c :: Replace1 s' old new
       end.

(** [old] occurs in [s] at offset [i]. *)
Definition occurs_at (old s : list byte) (i : nat) : Prop :=
  exists pre post, s = pre ++ old ++ post /\ length pre = i.

(** [s] splits as [pre ++ old ++ post] at the first occurrence of [old]. *)
Definition first_occurrence (old s pre post : list byte) : Prop :=
  s = pre ++ old ++ post /\
  forall i, (i < length pre)%nat -> ~ occurs_at old s i.

Definition absent (old s : list byte) : Prop :=
  forall i, ~ occurs_at old s i.

(** [out] is [s] with the first occurrence of [old], if there is one,
    replaced by [new]. *)
Definition replaced_first (old new s out : list byte) : Prop :=
  (exists pre post, first_occurrence old s pre post /\
                    out = pre ++ new ++ post)
  \/ (absent old s /\ out = s).

End go_bytes.

(** ** package viewproxy: the response builder and the server
    (response_builder.go) *)

Module viewproxy.

Import viewproxy_route.

Definition CONTENT_TOKEN : list byte := bytes_of "{{{VIEW_PROXY_CONTENT}}}".
Definition TITLE_TOKEN : list byte := bytes_of "{{{VIEW_PROXY_PAGE_TITLE}}}".
Definition TITLE_HEADER : string := "X-View-Proxy-Title".

Record Server := mkServer {
  Port : Z;
  ProxyTimeout : Z;
  routes : list Route;
  Target : string;
  DefaultPageTitle : string;
  ignoreHeaders : gset string
}.

(** [Server.Get]. *)
Definition Get (s : Server) (path : string) (layout : Fragment)
    (frags : list Fragment) : Server :=
  {| Port := Port s; ProxyTimeout := ProxyTimeout s;
     routes := routes s ++ [newRoute path layout frags];
     Target := Target s; DefaultPageTitle := DefaultPageTitle s;
     ignoreHeaders := ignoreHeaders s |}.

(** An [http.ResponseWriter]: the header map, the status written by
    [WriteHeader] and the bytes written so far. *)
Record ResponseWriter := mkWriter {
  WHeader : http.Header;
  WStatus : option Z;
  Written : list byte
}.

Record responseBuilder := mkBuilder {
  writer : ResponseWriter;
  server : Server;
  body : list byte;
  StatusCode : Z
}.

Definition newResponseBuilder (s : Server) (w : ResponseWriter)
    : responseBuilder :=
  {| writer := w; server := s; body := []; StatusCode := 200 |}.

Definition SetLayout (rb : responseBuilder) (result : multiplexer.Result)
    : responseBuilder :=
  {| writer := writer rb; server := server rb;
     body := multiplexer.Body result; StatusCode := StatusCode rb |}.

Definition title_of (result : multiplexer.Result) : string :=
  http.Get (http.RespHeader (multiplexer.HttpResponse result)) TITLE_HEADER.

(** One pass of the [for _, result := range results] loop, shared by
    [SetFragments] and [ServeHTTP]. *)
Definition fragment_step (acc : list byte * string)
    (result : multiplexer.Result) : list byte * string :=
  let '(contentHtml, pageTitle) := acc in
  (contentHtml ++ multiplexer.Body result,
   if negb (String.eqb (title_of result) "") then title_of result
   else pageTitle).

(** The loop of [SetFragments]: [contentHtml] starts nil and [pageTitle]
    empty. *)
Definition SetFragments_loop (results : list multiplexer.Result)
    : list byte * string :=
  fold_left fragment_step results ([], "").

(** [pageTitle] once the default has been applied. *)
Definition SetFragments_pageTitle (s : Server)
    (results : list multiplexer.Result) : string :=
  let pageTitle := snd (SetFragments_loop results) in
  if String.eqb pageTitle "" then DefaultPageTitle s else pageTitle.

(** [responseBuilder.SetFragments]. *)
Definition SetFragments (rb : responseBuilder)
    (results : list multiplexer.Result) : responseBuilder :=
  let contentHtml := fst (SetFragments_loop results) in
  let pageTitle := SetFragments_pageTitle (server rb) results in
  let body' :=
    if (length (body rb) =? 0)%nat then contentHtml
    else
      let outputHtml :=
        go_bytes.Replace1 (body rb) CONTENT_TOKEN contentHtml in
      go_bytes.Replace1 outputHtml TITLE_TOKEN (bytes_of pageTitle) in
  {| writer := writer rb; server := server rb; body := body';
     StatusCode := StatusCode rb |}.

(** [responseBuilder.Write]. *)
Definition Write (rb : responseBuilder) : ResponseWriter :=
  {| WHeader := WHeader (writer rb); WStatus := Some (StatusCode rb);
     Written := Written (writer rb) ++ body rb |}.

Section WithLibraries.

Context {lib : StdLib}.

(** [Server.IgnoreHeader]. *)
Definition IgnoreHeader (s : Server) (name : string) : Server :=
  {| Port := Port s; ProxyTimeout := ProxyTimeout s; routes := routes s;
     Target := Target s; DefaultPageTitle := DefaultPageTitle s;
     ignoreHeaders := {[ToLower name]} ∪ ignoreHeaders s |}.

Definition query_of (parameters : gmap string string)
    : gmap string (list string) :=
  map_fold (fun name value query => http.Add query name value) ∅ parameters.

(** [Server.constructLayoutUrl]; a target that does not parse panics. *)
Definition constructLayoutUrl (s : Server) (layout : string)
    (parameters : gmap string string) : go string :=
  match url_Parse (Target s) with
  | None => Panic "url.Parse"
  | Some targetUrl =>
      Ret (url_String
             {| net_url.Prefix := net_url.Prefix targetUrl;
                net_url.Path := net_url.Path targetUrl +:+ "/layouts/" +:+ layout;
                net_url.RawQuery := Values_Encode (query_of parameters) |})
  end.

(** [Server.constructFragmentUrl]. *)
Definition constructFragmentUrl (s : Server) (fragment : string)
    (parameters : gmap string string) : go string :=
  match url_Parse (Target s +:+ "/" +:+ fragment) with
  | None => Panic "url.Parse"
  | Some targetUrl =>
      Ret (url_String
             {| net_url.Prefix := net_url.Prefix targetUrl;
                net_url.Path := net_url.Path targetUrl;
                net_url.RawQuery := Values_Encode (query_of parameters) |})
  end.

(** Modelled from the spec: [multiplexer.Fetch(ctx, urls, timeout)], the
    aggregate fetch [ServeHTTP] calls, is not among the sources. It is
    the aggregate call of section 4.2: one fragment per URL, the given
    overall deadline, strict mode and no HMAC secret (the defaults of
    [NewRequest]), run by [Request.Do]. *)
Definition Fetch (transport : multiplexer.RoundTripper)
    (w : multiplexer.World) (urls : list string) (timeout : Z)
    : multiplexer.outcome :=
  let r := multiplexer.NewRequest transport in
  multiplexer.Do
    {| multiplexer.Header := multiplexer.Header r;
       multiplexer.layoutURL := multiplexer.layoutURL r;
       multiplexer.fragments := (fun u => multiplexer.mkfragment u ∅) <$> urls;
       multiplexer.Timeout := timeout;
       multiplexer.HmacSecret := multiplexer.HmacSecret r;
       multiplexer.Non2xxErrors := multiplexer.Non2xxErrors r;
       multiplexer.Transport := transport |} w.


(** What [s.Logger.Printf] is called with. *)
Inductive log_entry :=
| LogHandling (path : string)
| LogErrored (err : multiplexer.error)
| LogFetched (url_ : string) (duration : Z)
| LogRendering404 (path : string).

(** How a call of [ServeHTTP] ends. *)
Inductive served :=
| Responded (w : ResponseWriter)
| Panicked (msg : string)
| Hung.

(** The header loop of [ServeHTTP]: every value of every header of the
    layout response whose lower-cased name is not ignored. *)
Definition copy_headers (s : Server) (from : http.Header)
    (to : http.Header) : http.Header :=
  map_fold (fun name values acc =>
              if bool_decide (ToLower name ∈ ignoreHeaders s) then acc
              else fold_left (fun acc value => http.Add acc name value)
                             values acc)
           to from.

Fixpoint mapM_go {A B} (f : A -> go B) (l : list A) : go (list B) :=
  match l with
  | [] => Ret []
  | x :: l' => y ← f x; ys ← mapM_go f l'; Ret (y :: ys)
  end.

(** The loop of [ServeHTTP] over [results[1:]]: [pageTitle] starts as
    the default title. *)
Definition ServeHTTP_loop (s : Server) (rest : list multiplexer.Result)
    : list byte * string :=
  fold_left fragment_step rest ([], DefaultPageTitle s).

(** What follows [multiplexer.Fetch] in [ServeHTTP], given the values it
    returned. The log grows in front of the outcome, so it is kept when
    the handler panics. *)
Definition after_fetch (s : Server) (w : ResponseWriter)
    (results : list multiplexer.Result) (err : option multiplexer.error)
    : list log_entry * served :=
  let log1 := match err with
              | Some e => [LogErrored e]
              | None => []
              end in
  match results with
  | [] => (log1, Panicked "index out of range [0] with length 0")
  | layout :: rest =>
      let layoutHtml := multiplexer.Body layout in
      let log2 := log1 ++ [LogFetched (multiplexer.Url layout)
                                      (multiplexer.Duration layout)] in
      let header' :=
        copy_headers s (http.RespHeader (multiplexer.HttpResponse layout))
                     (WHeader w) in
      let log3 :=
        log2 ++ ((fun result => LogFetched (multiplexer.Url result)
                                           (multiplexer.Duration result))
                 <$> rest) in
      let '(contentHtml, pageTitle) := ServeHTTP_loop s rest in
      let outputHtml :=
        go_bytes.Replace1 layoutHtml CONTENT_TOKEN contentHtml in
      let outputHtml :=
        go_bytes.Replace1 outputHtml TITLE_TOKEN (bytes_of pageTitle) in
      (log3, Responded {| WHeader := header';
                          WStatus := Some (default 200 (WStatus w));
                          Written := Written w ++ outputHtml |})
  end.

(** The [urls] slice of [ServeHTTP]: the layout URL, then one URL per
    fragment. In this version of the handler a route names its layout
    and fragments by strings; they are the [Path]s of the route's
    [Fragment]s. *)
Definition request_urls (s : Server) (route : Route)
    (parameters : gmap string string) : go (list string) :=
  layoutUrl ← constructLayoutUrl s (Path (Layout route)) parameters;
  fragmentUrls ← mapM_go (fun f => constructFragmentUrl s (Path f) parameters)
                         (fragments route);
  Ret (layoutUrl :: fragmentUrls).

(** [Server.ServeHTTP] for the request path [path]. *)
Definition ServeHTTP (s : Server) (transport : multiplexer.RoundTripper)
    (world : multiplexer.World) (w : ResponseWriter) (path : string)
    : list log_entry * served :=
  match matchingRoute (routes s) path with
  | Panic msg => ([], Panicked msg)
  | Ret None =>
      ([LogRendering404 path],
       Responded {| WHeader := WHeader w;
                    WStatus := Some (default 200 (WStatus w));
                    Written := Written w ++ bytes_of "404 not found" |})
  | Ret (Some (route, parameters)) =>
      let log0 := [LogHandling path] in
      match request_urls s route parameters with
      | Panic msg => (log0, Panicked msg)
      | Ret urls =>
          match Fetch transport world urls (ProxyTimeout s) with
          | multiplexer.Blocked => (log0, Hung)
          | multiplexer.Crashed msg => (log0, Panicked msg)
          | multiplexer.Returned results err =>
              let '(log, out) := after_fetch s w (elems_of results) err in
              (log0 ++ log, out)
          end
      end
  end.

End WithLibraries.

End viewproxy.

(** ** package server (pkg/server/server.go, first part)

    The earlier handler: one goroutine and one unbuffered channel per
    fragment, the bodies written as they are received, channel by channel.
    A route of this package has no layout and its fragments are plain
    names. The route type of that revision is not among the sources:
    route.go's stands in for it, with an empty layout and the fragment
    names as the [Path]s of its [Fragment]s. *)

Module server.

Import viewproxy_route.

Record Server := mkServer {
  Port : Z;
  ProxyTimeout : Z;
  routes : list Route;
  Target : string
}.

(** [Server.Get]. *)
Definition Get (s : Server) (path : string) (frags : list string) : Server :=
  {| Port := Port s; ProxyTimeout := ProxyTimeout s;
     routes := routes s ++ [newRoute path (NewFragment "") (NewFragment <$> frags)];
     Target := Target s |}.

(** [w.Write(body)]: the first write fixes the status at 200 when
    [WriteHeader] has not been called. *)
Definition write (w : viewproxy.ResponseWriter) (content : list byte)
    : viewproxy.ResponseWriter :=
  {| viewproxy.WHeader := viewproxy.WHeader w;
     viewproxy.WStatus := Some (default 200 (viewproxy.WStatus w));
     viewproxy.Written := viewproxy.Written w ++ content |}.

Inductive log_entry :=
| LogHandling (path : string)
| LogFetched (url_ : string) (duration : Z)
| LogRendering404 (path : string).

(** How the handler stands when the trace ends: it has returned, a
    goroutine has panicked, or it is blocked receiving from a channel. *)
Inductive served :=
| Responded (w : viewproxy.ResponseWriter)
| Panicked (msg : string)
| Waiting (w : viewproxy.ResponseWriter).

(** The order in which the fetch goroutines get their response, and the
    duration each one measures. *)
Record World := mkWorld {
  completion : list nat;
  elapsed : nat -> Z
}.

(** The loop [for _, content := range fragmentContent], as far as it can
    run: [channels] are the indices of the channels still to be received
    from, [sent] maps a goroutine that has fetched to the body it sends. *)
Fixpoint receive (channels : list nat) (sent : gmap nat (list byte))
    (w : viewproxy.ResponseWriter) : list nat * viewproxy.ResponseWriter :=
  match channels with
  | [] => ([], w)
  | i :: channels' =>
      match sent !! i with
      | Some content => receive channels' sent (write w content)
      | None => (channels, w)
      end
  end.

Definition standing (channels : list nat) (w : viewproxy.ResponseWriter)
    : served :=
  match channels with
  | [] => Responded w
  | _ :: _ => Waiting w
  end.

(** The goroutines completing in the order of [events]. [get] is
    [http.Get] followed by [ioutil.ReadAll], whose error is dropped: [None]
    when [http.Get] fails, which leaves [resp] nil and makes [resp.Body]
    panic, after the log line has been printed. *)
Fixpoint run (get : string -> option (list byte)) (durations : nat -> Z)
    (urls : list string) (events : list nat) (channels : list nat)
    (sent : gmap nat (list byte)) (w : viewproxy.ResponseWriter)
    (log : list log_entry) : list log_entry * served :=
  match events with
  | [] => (log, standing channels w)
  | i :: events' =>
      match urls !! i with
      | None => run get durations urls events' channels sent w log
      | Some fragmentUrl =>
          let log := log ++ [LogFetched fragmentUrl (durations i)] in
          match get fragmentUrl with
          | None => (log, Panicked "nil pointer dereference")
          | Some content =>
              let sent := <[i := content]> sent in
              let '(channels, w) := receive channels sent w in
              run get durations urls events' channels sent w log
          end
      end
  end.

(** The lines the goroutines log, in the order they complete. *)
Definition fetch_log (durations : nat -> Z) (urls : list string)
    (events : list nat) : list log_entry :=
  omap (fun i => (fun fragmentUrl => LogFetched fragmentUrl (durations i))
                   <$> urls !! i) events.

Section WithLibraries.

Context {lib : StdLib}.

(** The query of [constructFragmentUrl]: the route parameters, then
    [fragment] added under the name "fragment". *)
Definition fragment_query (fragment : string)
    (parameters : gmap string string) : gmap string (list string) :=
  http.Add (viewproxy.query_of parameters) "fragment" fragment.

(** [Server.constructFragmentUrl]. *)
Definition constructFragmentUrl (s : Server) (fragment : string)
    (parameters : gmap string string) : go string :=
  match url_Parse (Target s) with
  | None => Panic "url.Parse"
  | Some targetUrl =>
      Ret (url_String
             {| net_url.Prefix := net_url.Prefix targetUrl;
                net_url.Path := net_url.Path targetUrl;
                net_url.RawQuery :=
                  Values_Encode (fragment_query fragment parameters) |})
  end.

(** [Server.ServeHTTP] for the request path [path]. *)
Definition ServeHTTP (s : Server) (get : string -> option (list byte))
    (world : World) (w : viewproxy.ResponseWriter) (path : string)
    : list log_entry * served :=
  match matchingRoute (routes s) path with
  | Panic msg => ([], Panicked msg)
  | Ret None =>
      ([LogRendering404 path], Responded (write w (bytes_of "404 not found")))
  | Ret (Some (route, parameters)) =>
      match viewproxy.mapM_go
              (fun f => constructFragmentUrl s (Path f) parameters)
              (fragments route) with
      | Panic msg => ([LogHandling path], Panicked msg)
      | Ret urls =>
          run get (elapsed world) urls (completion world)
              (seq 0 (length urls)) ∅ w [LogHandling path]
      end
  end.

End WithLibraries.

End server.

(** ** Test doubles for the library functions

    Small stand-ins in the manner of the repository's test transports; the
    examples below run the code against them. *)

Module testlib.

(** The part of [s] before the first character satisfying [stop], and
    the rest from that character on. *)
Fixpoint span (stop : ascii -> bool) (s : string) : string * string :=
  match s with
  | EmptyString => (EmptyString, EmptyString)
  | String c s' =>
      if stop c then (EmptyString, s)
      else let '(a, b) := span stop s' in (String c a, b)
  end.

Fixpoint has_control (s : string) : bool :=
  match s with
  | EmptyString => false
  | String c s' =>
      let n := nat_of_ascii c in
      ((n <? 32) || (n =? 127))%nat || has_control s'
  end.

Definition is_slash_or_query (c : ascii) : bool :=
  Ascii.eqb c "/" || Ascii.eqb c "?".

Definition tail_string (s : string) : string :=
  match s with
  | EmptyString => EmptyString
  | String _ s' => s'
  end.

(** [url.Parse] on references [scheme://host] [path] [?query] without
    escapes or fragment; control characters are rejected. *)
Definition parse (s : string) : option net_url.URL :=
  if has_control s then None
  else
    let '(prefix, rest) :=
      match String.index 0 "://" s with
      | Some i =>
          let '(host, rest) :=
            span is_slash_or_query
                 (String.substring (i + 3) (String.length s - (i + 3)) s) in
          (String.substring 0 (i + 3) s +:+ host, rest)
      | None => (EmptyString, s)
      end in
    let '(path, query) := span (fun c => Ascii.eqb c "?") rest in
    Some {| net_url.Prefix := prefix; net_url.Path := path;
            net_url.RawQuery := tail_string query |}.

Definition unparse (u : net_url.URL) : string :=
  net_url.Prefix u +:+ net_url.Path u
    +:+ (if String.eqb (net_url.RawQuery u) "" then ""
         else "?" +:+ net_url.RawQuery u).

Fixpoint insert_sorted (kv : string * string) (l : list (string * string))
    : list (string * string) :=
  match l with
  | [] => [kv]
  | kv' :: l' => if String.leb (fst kv) (fst kv') then kv :: l
                 else kv' :: insert_sorted kv l'
  end.

Fixpoint join_query (l : list (string * string)) : string :=
  match l with
  | [] => ""
  | [(k, v)] => k +:+ "=" +:+ v
  | (k, v) :: l' => k +:+ "=" +:+ v +:+ "&" +:+ join_query l'
  end.

(** [url.Values.Encode] for names and values that need no escaping:
    [name=value] pairs joined by [&], sorted by name. *)
Definition encode (q : gmap string (list string)) : string :=
  join_query
    (foldr insert_sorted []
       (flat_map (fun '(k, vs) => (fun v => (k, v)) <$> vs) (map_to_list q))).

(** A framing that stands in for gzip: the two magic bytes of a gzip
    member, one length byte, then the stored payload. *)
Definition magic : list byte := [x1f; x8b].

Definition compress (payload : list byte) : list byte :=
  magic ++ byte_of_Z (Z.of_nat (length payload)) :: payload.

Definition new_reader (stream : list byte) : string + list byte :=
  if go_bytes.HasPrefix stream magic then inr (drop 2 stream)
  else inl "gzip: invalid header".

Definition read_all (rd : list byte) : list byte * option string :=
  match rd with
  | [] => ([], Some "unexpected EOF")
  | n :: payload =>
      let len := Z.to_nat (byte_to_Z n) in
      if (length payload <? len)%nat then (payload, Some "unexpected EOF")
      else (take len payload, None)
  end.

(** [strings.ToLower] on ASCII strings. *)
Definition lower_ascii (c : ascii) : ascii :=
  let n := nat_of_ascii c in
  if ((65 <=? n) && (n <=? 90))%nat then ascii_of_nat (n + 32) else c.

Fixpoint to_lower (s : string) : string :=
  match s with
  | EmptyString => EmptyString
  | String c s' => String (lower_ascii c) (to_lower s')
  end.

Definition lib : StdLib :=
  {| url_Parse := parse; url_String := unparse; Values_Encode := encode;
     gzipReader := list byte; gzip_NewReader := new_reader;
     gzip_ReadAll := read_all; ToLower := to_lower |}.

(** A transport that answers from a table of URLs; an unknown URL is a
    connection failure. *)
Definition table_transport (table : list (string * http.Response))
    : multiplexer.RoundTripper :=
  fun _ url_ _ =>
    match list_find (fun entry => String.eqb (fst entry) url_ = true) table with
    | Some (_, (_, resp)) => inr resp
    | None => inl (multiplexer.LibraryError "connection refused")
    end.

Definition ok_response (headers : list (string * string)) (content : string)
    : http.Response :=
  {| http.RespStatusCode := 200;
     http.RespHeader := list_to_map ((fun '(k, v) => (k, [v])) <$> headers);
     http.RawBody := bytes_of content;
     http.BodyReadError := None |}.

Definition status_response (status : Z) (content : string) : http.Response :=
  {| http.RespStatusCode := status; http.RespHeader := ∅;
     http.RawBody := bytes_of content; http.BodyReadError := None |}.

Definition world (events : list multiplexer.event) : multiplexer.World :=
  {| multiplexer.now := fun _ => 1700000000;
     multiplexer.elapsed := fun _ => 0;
     multiplexer.trace := events;
     multiplexer.select_picks_done := true |}.

Definition request (transport : multiplexer.RoundTripper)
    (urls : list string) : multiplexer.Request :=
  fold_left (fun r u => multiplexer.WithFragment r u ∅) urls
            (multiplexer.NewRequest transport).


(** [request] with an HMAC secret. *)
Definition signed_request (secret : string)
    (transport : multiplexer.RoundTripper) (urls : list string)
    : multiplexer.Request :=
  let r := request transport urls in
  {| multiplexer.Header := <["Accept" := ["text/html"]]> ∅;
     multiplexer.layoutURL := multiplexer.layoutURL r;
     multiplexer.fragments := multiplexer.fragments r;
     multiplexer.Timeout := multiplexer.Timeout r;
     multiplexer.HmacSecret := secret;
     multiplexer.Non2xxErrors := multiplexer.Non2xxErrors r;
     multiplexer.Transport := transport |}.

(** A 200 response that declares gzip encoding. *)
Definition gzip_response (stream : list byte) : http.Response :=
  {| http.RespStatusCode := 200;
     http.RespHeader := {["Content-Encoding" := ["gzip"]]};
     http.RawBody := stream; http.BodyReadError := None |}.

(** A stream whose header is well formed and whose payload, announced
    as five bytes, stops after two. *)
Definition truncated_stream : list byte := magic ++ x05 :: bytes_of "ab".

(** A successful result with the given body, and the title header when
    [title] is not empty. *)
Definition result (url_ title content : string) : multiplexer.Result :=
  {| multiplexer.Url := url_; multiplexer.Duration := 0;
     multiplexer.HttpResponse :=
       ok_response (if String.eqb title "" then []
                    else [("X-View-Proxy-Title", title)]) content;
     multiplexer.Body := bytes_of content;
     multiplexer.StatusCode := 200 |}.

Definition server (defaultTitle : string) : viewproxy.Server :=
  {| viewproxy.Port := 3005; viewproxy.ProxyTimeout := 5 * 1000000000;
     viewproxy.routes := []; viewproxy.Target := "http://localhost:3000";
     viewproxy.DefaultPageTitle := defaultTitle;
     viewproxy.ignoreHeaders := ∅ |}.

Definition blank_writer : viewproxy.ResponseWriter :=
  {| viewproxy.WHeader := ∅; viewproxy.WStatus := None;
     viewproxy.Written := [] |}.

(** A server with one route: a layout and two fragments. *)
Definition hello_server : viewproxy.Server :=
  viewproxy.Get (server "Home") "/hello/:name"
    (viewproxy_route.NewFragment "main")
    [viewproxy_route.NewFragment "header"; viewproxy_route.NewFragment "body"].

(** An upstream whose layout answers 500. *)
Definition failing_upstream : multiplexer.RoundTripper :=
  table_transport
    [("http://localhost:3000/layouts/main?name=world",
      status_response 500 "layout failed");
     ("http://localhost:3000/header?name=world", ok_response [] "<h1>hi</h1>");
     ("http://localhost:3000/body?name=world", ok_response [] "<p>world</p>")].

(** An upstream that answers every request of [hello_server]. *)
Definition healthy_upstream : multiplexer.RoundTripper :=
  table_transport
    [("http://localhost:3000/layouts/main?name=world",
      ok_response [("Content-Type", "text/html"); ("Content-Length", "57")]
        "<t>{{{VIEW_PROXY_PAGE_TITLE}}}</t>{{{VIEW_PROXY_CONTENT}}}");
     ("http://localhost:3000/header?name=world",
      ok_response [("X-View-Proxy-Title", "Hello")] "<h1>hi</h1>");
     ("http://localhost:3000/body?name=world", ok_response [] "<p>world</p>")].

(** A response builder whose layout body has been set. *)
Definition builder (defaultTitle layout : string) : viewproxy.responseBuilder :=
  {| viewproxy.writer := blank_writer; viewproxy.server := server defaultTitle;
     viewproxy.body := bytes_of layout; viewproxy.StatusCode := 200 |}.

(** A server of package [server] with one route of two fragments. *)
Definition streaming_server : server.Server :=
  server.Get {| server.Port := 3005; server.ProxyTimeout := 5 * 1000000000;
                server.routes := []; server.Target := "http://localhost:3000" |}
             "/hello/:name" ["header"; "body"].

(** [http.Get] followed by [ioutil.ReadAll] against a table of bodies; an
    unknown URL is a connection failure. *)
Definition table_get (table : list (string * string)) (fragmentUrl : string)
    : option (list byte) :=
  match list_find (fun entry => String.eqb (fst entry) fragmentUrl = true) table with
  | Some (_, (_, content)) => Some (bytes_of content)
  | None => None
  end.

(** The upstream of [streaming_server]. *)
Definition streaming_upstream : string -> option (list byte) :=
  table_get
    [("http://localhost:3000?fragment=header&name=world", "<h1>hi</h1>");
     ("http://localhost:3000?fragment=body&name=world", "<p>world</p>")].

End testlib.

(** * Properties *)

(** ** Route matching *)

Section RouteFacts.

Import viewproxy_route.

(** The name a parameter segment captures under: the segment without its
    first byte. *)
Lemma from1_of_parameter (p : string) :
  go_strings.HasPrefix p ":" = true ->
  exists name, go_strings.from1 p = Ret name /\ p = String ":" name.
Proof.
  unfold go_strings.HasPrefix.
  destruct p as [|c p']; cbn [String.prefix]; [discriminate|].
  destruct (Ascii.ascii_dec ":" c) as [<-|]; [|intros; discriminate].
  intros _. by exists p'.
Qed.

Lemma HasPrefix_colon (name : string) :
  go_strings.HasPrefix (String ":" name) ":" = true.
Proof.
  unfold go_strings.HasPrefix. cbn [String.prefix].
  destruct (Ascii.ascii_dec ":" ":") as [_|n]; [by destruct name|by destruct n].
Qed.

Lemma matchParts_loop_spec (parts pathParts : list string) :
  length parts = length pathParts ->
  matchParts_loop parts pathParts = true <->
  (forall i p s, parts !! i = Some p -> pathParts !! i = Some s ->
                 go_strings.HasPrefix p ":" = false -> p = s).
Proof.
  revert pathParts.
  induction parts as [|p parts IH]; intros [|s pathParts] Hlen;
    simpl in Hlen; try discriminate.
  - split; [|done]. intros _ i p s Hi. by rewrite lookup_nil in Hi.
  - cbn [matchParts_loop].
    destruct (String.eqb p s) eqn:E; cbn [negb andb].
    + apply String.eqb_eq in E as ->. rewrite IH by lia. split.
      * intros H [|i] p' s' H1 H2 Hp; simpl in *; [congruence|eauto].
      * intros H i p' s' H1 H2 Hp. by apply (H (S i)).
    + destruct (go_strings.HasPrefix p ":") eqn:P; cbn [negb].
      * rewrite IH by lia. split.
        -- intros H [|i] p' s' H1 H2 Hp; simpl in *; [congruence|eauto].
        -- intros H i p' s' H1 H2 Hp. by apply (H (S i)).
      * split; [discriminate|]. intros H.
        apply String.eqb_neq in E. destruct E. by apply (H 0%nat).
Qed.

Lemma matchParts_spec (r : Route) (pathParts : list string) :
  matchParts r pathParts = true <->
  length (Parts r) = length pathParts /\
  (forall i p s, Parts r !! i = Some p -> pathParts !! i = Some s ->
                 go_strings.HasPrefix p ":" = false -> p = s).
Proof.
  unfold matchParts.
  destruct (Nat.eqb (length (Parts r)) (length pathParts)) eqn:E; cbn [negb].
  - apply Nat.eqb_eq in E. rewrite matchParts_loop_spec by done. tauto.
  - apply Nat.eqb_neq in E. split; [discriminate|tauto].
Qed.

(** A name that no parameter segment of [parts] carries keeps its entry. *)
Lemma parametersFor_loop_frame (parts pathParts : list string)
    (m : gmap string string) (name : string) :
  length parts = length pathParts ->
  (forall i p, parts !! i = Some p -> go_strings.HasPrefix p ":" = true ->
               p <> String ":" name) ->
  exists m', parametersFor_loop parts pathParts m = Ret m' /\
             m' !! name = m !! name.
Proof.
  revert pathParts m.
  induction parts as [|p parts IH]; intros [|s pathParts] m Hlen Hno;
    simpl in Hlen; try discriminate.
  - by exists m.
  - cbn [parametersFor_loop].
    destruct (go_strings.HasPrefix p ":") eqn:P.
    + destruct (from1_of_parameter p P) as (n & -> & Hp). cbn.
      destruct (IH pathParts (<[n := s]> m)) as (m' & Hm' & Hl); [lia|..].
      { intros i p' H1 H2. by apply (Hno (S i)). }
      exists m'. split; [done|]. rewrite Hl. apply lookup_insert_ne.
      intros ->. by apply (Hno 0%nat p).
    + cbn. apply IH; [lia|]. intros i p' H1 H2. by apply (Hno (S i)).
Qed.

(** The entry of a parameter name is the path segment at the last
    position carrying that name. *)
Lemma parametersFor_loop_last (parts pathParts : list string)
    (m : gmap string string) (i : nat) (name s : string) :
  length parts = length pathParts ->
  parts !! i = Some (String ":" name) ->
  pathParts !! i = Some s ->
  (forall j, (i < j)%nat -> parts !! j <> Some (String ":" name)) ->
  exists m', parametersFor_loop parts pathParts m = Ret m' /\
             m' !! name = Some s.
Proof.
  revert pathParts m i.
  induction parts as [|p parts IH]; intros [|s0 pathParts] m i Hlen Hi Hs Hlast;
    simpl in Hlen; try discriminate.
  cbn [parametersFor_loop]. destruct i as [|i]; simpl in Hi, Hs.
  - injection Hi as ->. injection Hs as ->.
    rewrite HasPrefix_colon. cbn.
    destruct (parametersFor_loop_frame parts pathParts (<[name := s]> m) name)
      as (m' & Hm' & Hl); [lia|..].
    { intros j p' H1 _ ->. by apply (Hlast (S j)); [lia|]. }
    exists m'. split; [done|]. by rewrite Hl, lookup_insert_eq.
  - assert (Hlast' : forall j, (i < j)%nat -> parts !! j <> Some (String ":" name)).
    { intros j Hj. apply (Hlast (S j)). lia. }
    destruct (go_strings.HasPrefix p ":") eqn:P.
    + destruct (from1_of_parameter p P) as (n & -> & Hp). cbn.
      apply (IH pathParts _ i); [lia|done..].
    + cbn. apply (IH pathParts _ i); [lia|done..].
Qed.

(** Every entry written by the loop is a path segment, at a position
    whose route part is the parameter of that name. *)
Lemma parametersFor_loop_sound (parts pathParts : list string)
    (m m' : gmap string string) (name v : string) :
  parametersFor_loop parts pathParts m = Ret m' ->
  m' !! name = Some v ->
  m !! name = Some v \/
  exists i, parts !! i = Some (String ":" name) /\ pathParts !! i = Some v.
Proof.
  revert pathParts m.
  induction parts as [|p parts IH]; intros pathParts m Hrun Hv;
    cbn [parametersFor_loop] in Hrun.
  - injection Hrun as <-. by left.
  - destruct (go_strings.HasPrefix p ":") eqn:P.
    + destruct (from1_of_parameter p P) as (n & Hn & ->). rewrite Hn in Hrun.
      cbn in Hrun. destruct pathParts as [|s pathParts]; [discriminate|].
      destruct (IH _ _ Hrun Hv) as [Hm|(i & H1 & H2)].
      * destruct (decide (n = name)) as [->|Hne].
        -- rewrite lookup_insert_eq in Hm. injection Hm as ->.
           right. by exists 0%nat.
        -- rewrite lookup_insert_ne in Hm by done. by left.
      * right. by exists (S i).
    + destruct (IH _ _ Hrun Hv) as [Hm|(i & H1 & H2)]; [by left|].
      right. exists (S i). split; [done|].
      by destruct pathParts.
Qed.

Lemma parametersFor_loop_returns (parts pathParts : list string)
    (m : gmap string string) :
  length parts = length pathParts ->
  exists m', parametersFor_loop parts pathParts m = Ret m'.
Proof.
  revert pathParts m.
  induction parts as [|p parts IH]; intros [|s pathParts] m Hlen;
    simpl in Hlen; try discriminate.
  - by exists m.
  - cbn [parametersFor_loop].
    destruct (go_strings.HasPrefix p ":") eqn:P.
    + destruct (from1_of_parameter p P) as (n & -> & Hp). cbn.
      apply IH. lia.
    + cbn. apply IH. lia.
Qed.

Lemma matchingRoute_loop_none (routes : list Route) (parts : list string) :
  (forall r, r ∈ routes -> matchParts r parts = false) ->
  matchingRoute_loop routes parts = Ret None.
Proof.
  induction routes as [|r routes IH]; intros Hno; [done|].
  cbn [matchingRoute_loop]. rewrite (Hno r) by apply list_elem_of_here.
  apply IH. intros r' Hr'. apply Hno. by apply list_elem_of_further.
Qed.

Lemma matchingRoute_loop_first (pre post : list Route) (r : Route)
    (parts : list string) :
  (forall r', r' ∈ pre -> matchParts r' parts = false) ->
  matchParts r parts = true ->
  exists ps, parametersFor r parts = Ret ps /\
             matchingRoute_loop (pre ++ r :: post) parts = Ret (Some (r, ps)).
Proof.
  intros Hpre Hr.
  destruct (parametersFor_loop_returns (Parts r) parts ∅) as [ps Hps].
  { by apply matchParts_spec in Hr as [? _]. }
  exists ps. split; [done|].
  induction pre as [|r' pre IH]; cbn [app matchingRoute_loop].
  - rewrite Hr. unfold parametersFor. by rewrite Hps.
  - rewrite (Hpre r') by apply list_elem_of_here.
    apply IH. intros r'' Hr''. apply Hpre. by apply list_elem_of_further.
Qed.

(** C5, as amended. A route matches exactly when the segment counts agree
    and every segment of the route that is not a parameter equals the path
    segment at its position. On a match the parameter map is built without
    a panic; the value kept under a parameter name is, verbatim, the path
    segment at the last position of the route carrying that name, and
    every entry of the map is such a segment. [matchingRoute] returns the
    first matching route in registration order, with its parameter map,
    and no route when none matches. *)
Theorem matchingRoute_first_match (routes : list Route) (path : string) :
  let parts := go_strings.Split path "/" in
  (forall r pathParts,
     matchParts r pathParts = true <->
     length (Parts r) = length pathParts /\
     (forall i p s, Parts r !! i = Some p -> pathParts !! i = Some s ->
                    go_strings.HasPrefix p ":" = false -> p = s)) /\
  (forall r pathParts,
     matchParts r pathParts = true ->
     exists ps,
       parametersFor r pathParts = Ret ps /\
       (forall i name s,
          Parts r !! i = Some (String ":" name) ->
          pathParts !! i = Some s ->
          (forall j, (i < j)%nat -> Parts r !! j <> Some (String ":" name)) ->
          ps !! name = Some s) /\
       (forall name v,
          ps !! name = Some v ->
          exists i, Parts r !! i = Some (String ":" name) /\
                    pathParts !! i = Some v)) /\
  ((forall r, r ∈ routes -> matchParts r parts = false) ->
   matchingRoute routes path = Ret None) /\
  (forall pre r post,
     routes = pre ++ r :: post ->
     (forall r', r' ∈ pre -> matchParts r' parts = false) ->
     matchParts r parts = true ->
     exists ps, parametersFor r parts = Ret ps /\
                matchingRoute routes path = Ret (Some (r, ps))).
Proof.
  intros parts. split; [|split; [|split]].
  - apply matchParts_spec.
  - intros r pathParts Hm. apply matchParts_spec in Hm as [Hlen _].
    destruct (parametersFor_loop_returns (Parts r) pathParts ∅ Hlen) as [ps Hps].
    exists ps. split; [done|]. split.
    + intros i name s Hi Hs Hlast.
      destruct (parametersFor_loop_last (Parts r) pathParts ∅ i name s)
        as (ps' & Hps' & Hl); try done.
      unfold parametersFor in *. congruence.
    + intros name v Hv.
      destruct (parametersFor_loop_sound _ _ _ _ _ _ Hps Hv) as [He|?]; [|done].
      by rewrite lookup_empty in He.
  - apply matchingRoute_loop_none.
  - intros pre r post -> Hpre Hr. by apply matchingRoute_loop_first.
Qed.

(** The route [/hello/:name] against [/hello/world], behind a route that
    does not match. *)
Lemma matchingRoute_first_match_witness :
  let home := newRoute "/" (NewFragment "home") [] in
  let hello := newRoute "/hello/:name" (NewFragment "page") [] in
  exists ps,
    parametersFor hello (go_strings.Split "/hello/world" "/") = Ret ps /\
    matchingRoute [home; hello] "/hello/world" = Ret (Some (hello, ps)).
Proof.
  intros home hello.
  apply (proj2 (proj2 (proj2
           (matchingRoute_first_match [home; hello] "/hello/world")))
           [home] hello []).
  - reflexivity.
  - intros r' Hr'. apply list_elem_of_singleton in Hr' as ->.
    vm_compute. reflexivity.
  - vm_compute. reflexivity.
Defined.

(** The cases of [TestRouteMatch] and [TestRouteParameters]
    (route_test.go). *)
Example TestRouteMatch :
  let matches routePath providedUrl :=
    matchParts (newRoute routePath (NewFragment "") [])
               (go_strings.Split providedUrl "/") in
  matches "/" "/" = true /\
  matches "/" "/hello-world" = false /\
  matches "/hello/world" "/hello/world" = true /\
  matches "/hello/world" "/hello/false" = false /\
  matches "/hello/:name" "/hello/world" = true /\
  matches "/hello/:name" "/hello/world/wow" = false.
Proof. vm_compute. repeat split. Qed.

Example TestRouteParameters :
  let parameters routePath providedUrl :=
    parametersFor (newRoute routePath (NewFragment "") [])
                  (go_strings.Split providedUrl "/") in
  parameters "/" "/" = Ret ∅ /\
  parameters "/hello/:name" "/hello/world" = Ret {["name" := "world"]}.
Proof. vm_compute. repeat split. Qed.

(** C5 as stated fails on a route that repeats a parameter name: the map
    keeps one value per name, so the first [:id] of [/:id/:id] does not
    capture its own path segment. *)
Lemma captured_value_counterexample :
  ~ (forall (r : Route) (pathParts : list string) (i : nat) (name s : string),
       matchParts r pathParts = true ->
       Parts r !! i = Some (String ":" name) ->
       pathParts !! i = Some s ->
       exists ps, parametersFor r pathParts = Ret ps /\ ps !! name = Some s).
Proof.
  intros H.
  set (r := newRoute "/:id/:id" (NewFragment "layout") []).
  set (pathParts := go_strings.Split "/x/y" "/").
  destruct (H r pathParts 1%nat "id" "x") as (ps & Hps & Hx);
    [vm_compute; reflexivity..|].
  destruct (parametersFor_loop_last (Parts r) pathParts ∅ 2 "id" "y")
    as (ps' & Hps' & Hy); [vm_compute; reflexivity..| |].
  { intros [|[|[|j]]] Hj; try lia. vm_compute. discriminate. }
  unfold parametersFor in Hps. rewrite Hps in Hps'. injection Hps' as <-.
  rewrite Hx in Hy. discriminate.
Qed.

End RouteFacts.

(** ** bytes.Replace *)

Section ReplaceFacts.

Import go_bytes.

Lemma HasPrefix_spec (s old : list byte) :
  HasPrefix s old = true <-> exists post, s = old ++ post.
Proof.
  revert s. induction old as [|p old IH]; intros s.
  - split; [by exists s|by destruct s].
  - destruct s as [|c s]; cbn [HasPrefix].
    + split; [discriminate|]. by intros [post ?].
    + rewrite andb_true_iff, IH. split.
      * intros [Hpc [post ->]]. apply Byte.byte_dec_bl in Hpc as ->. by exists post.
      * intros [post [= -> ->]]. split; [by apply Byte.byte_dec_lb|by exists post].
Qed.

Lemma occurs_at_0 (old s : list byte) :
  occurs_at old s 0 <-> HasPrefix s old = true.
Proof.
  rewrite HasPrefix_spec. split.
  - intros (pre & post & -> & Hlen). apply nil_length_inv in Hlen as ->.
    by exists post.
  - intros [post ->]. by exists [], post.
Qed.

Lemma occurs_at_S (old s : list byte) (c : byte) (i : nat) :
  occurs_at old (c :: s) (S i) <-> occurs_at old s i.
Proof.
  split.
  - intros ([|c' pre] & post & Heq & Hlen); [discriminate|].
    injection Heq as -> ->. injection Hlen as <-. by exists pre, post.
  - intros (pre & post & -> & <-). by exists (c :: pre), post.
Qed.

Lemma occurs_at_bound (old s : list byte) (i : nat) :
  occurs_at old s i -> (i + length old <= length s)%nat.
Proof.
  intros (pre & post & -> & <-). rewrite !length_app. lia.
Qed.

(** [Replace1] replaces the first occurrence and nothing else. *)
Lemma Replace1_replaced_first (s old new : list byte) :
  replaced_first old new s (Replace1 s old new).
Proof.
  induction s as [|c s IH].
  - cbn [Replace1]. destruct (HasPrefix [] old) eqn:E.
    + left. apply HasPrefix_spec in E as [post E]. exists [], post.
      split; [split; [done|]|].
      * intros i Hi. simpl in Hi. lia.
      * symmetry in E. apply app_eq_nil in E as [-> ->]. done.
    + right. split; [|done]. intros i (pre & post & Heq & _).
      symmetry in Heq. apply app_eq_nil in Heq as [-> Heq].
      apply app_eq_nil in Heq as [-> ->]. discriminate.
  - cbn [Replace1]. destruct (HasPrefix (c :: s) old) eqn:E.
    + left. apply HasPrefix_spec in E as E'. destruct E' as [post E'].
      exists [], post. split; [split; [done|]|].
      * intros i Hi. simpl in Hi. lia.
      * rewrite E', drop_app_length. done.
    + assert (H0 : ~ occurs_at old (c :: s) 0).
      { rewrite occurs_at_0, E. discriminate. }
      destruct IH as [(pre & post & [Hs Hfirst] & ->)|[Habs ->]].
      * left. exists (c :: pre), post. split; [split|done].
        -- by rewrite Hs.
        -- intros [|i] Hi; [done|]. rewrite occurs_at_S.
           apply Hfirst. simpl in Hi. lia.
      * right. split; [|done]. intros [|i]; [done|].
        rewrite occurs_at_S. apply Habs.
Qed.

Lemma first_occurrence_unique (old s pre1 post1 pre2 post2 : list byte) :
  first_occurrence old s pre1 post1 ->
  first_occurrence old s pre2 post2 ->
  pre1 = pre2 /\ post1 = post2.
Proof.
  intros [H1 F1] [H2 F2].
  assert (Hlen : length pre1 = length pre2).
  { destruct (Nat.lt_trichotomy (length pre1) (length pre2)) as [Hlt|[?|Hlt]];
      [|done|].
    - destruct (F2 _ Hlt). by exists pre1, post1.
    - destruct (F1 _ Hlt). by exists pre2, post2. }
  rewrite H1 in H2. apply app_inj_1 in H2 as [-> H2]; [|done].
  by apply app_inv_head in H2.
Qed.

(** [replaced_first] determines its result. *)
Lemma replaced_first_unique (old new s out1 out2 : list byte) :
  replaced_first old new s out1 -> replaced_first old new s out2 ->
  out1 = out2.
Proof.
  intros [(pre1 & post1 & Hf1 & ->)|[Ha1 ->]]
         [(pre2 & post2 & Hf2 & ->)|[Ha2 ->]].
  - by destruct (first_occurrence_unique _ _ _ _ _ _ Hf1 Hf2) as [-> ->].
  - destruct Hf1 as [H1 _]. destruct (Ha2 (length pre1)). by exists pre1, post1.
  - destruct Hf2 as [H2 _]. destruct (Ha1 (length pre2)). by exists pre2, post2.
  - done.
Qed.

Lemma Replace1_first (s old new pre post : list byte) :
  first_occurrence old s pre post ->
  Replace1 s old new = pre ++ new ++ post.
Proof.
  intros Hf. apply (replaced_first_unique old new s).
  - apply Replace1_replaced_first.
  - left. by exists pre, post.
Qed.

Lemma Replace1_absent (s old new : list byte) :
  absent old s -> Replace1 s old new = s.
Proof.
  intros Ha. apply (replaced_first_unique old new s).
  - apply Replace1_replaced_first.
  - by right.
Qed.

(** Occurrence at an offset is decided by [HasPrefix] on the suffix. *)
Lemma occurs_at_drop (old s : list byte) (i : nat) :
  occurs_at old s i <->
  (i <= length s)%nat /\ HasPrefix (drop i s) old = true.
Proof.
  revert s. induction i as [|i IH]; intros s.
  - rewrite occurs_at_0, drop_0. split; [|tauto]. split; [lia|done].
  - destruct s as [|c s].
    + split.
      * intros H. apply occurs_at_bound in H. simpl in H. lia.
      * simpl. lia.
    + rewrite occurs_at_S, IH. simpl. split; intros [? ?]; split; (lia || done).
Qed.

End ReplaceFacts.

(** ** The response assembler *)

Section AssemblerFacts.

Import viewproxy.

Lemma fold_fragment_step_content (results : list multiplexer.Result)
    (contentHtml : list byte) (pageTitle : string) :
  fst (fold_left fragment_step results (contentHtml, pageTitle))
  = contentHtml ++ concat (multiplexer.Body <$> results).
Proof.
  revert contentHtml pageTitle.
  induction results as [|r results IH]; intros contentHtml pageTitle; simpl.
  - by rewrite app_nil_r.
  - by rewrite IH, <- app_assoc.
Qed.

(** The title after the loop: the header of the last result that sets a
    non-empty one, the initial title when there is none. *)
Lemma fold_fragment_step_title (results : list multiplexer.Result)
    (contentHtml : list byte) (pageTitle : string) :
  snd (fold_left fragment_step results (contentHtml, pageTitle))
  = match last (filter (fun r => title_of r <> "") results) with
    | Some r => title_of r
    | None => pageTitle
    end.
Proof.
  revert contentHtml pageTitle.
  induction results as [|r results IH] using rev_ind;
    intros contentHtml pageTitle; [done|].
  rewrite fold_left_app, filter_app. cbn [fold_left].
  destruct (fold_left fragment_step results (contentHtml, pageTitle))
    as [c t] eqn:E.
  cbn [fragment_step snd].
  assert (Ht : t = match last (filter (fun r => title_of r <> "") results) with
                   | Some r => title_of r
                   | None => pageTitle
                   end).
  { by rewrite <- (IH contentHtml pageTitle), E. }
  destruct (String.eqb (title_of r) "") eqn:Er; cbn [negb].
  - apply String.eqb_eq in Er.
    rewrite (filter_cons_False _ r []) by (intros H; by apply H).
    by rewrite filter_nil, app_nil_r.
  - apply String.eqb_neq in Er.
    rewrite (filter_cons_True _ r []) by done.
    by rewrite filter_nil, last_snoc.
Qed.

(** C8. The title [SetFragments] resolves, and the title [ServeHTTP]
    resolves over [results[1:]], is the [X-View-Proxy-Title] value of the
    last result in input order whose value is non-empty, and the
    configured default title when no result has one. *)
Theorem pageTitle_last_override_or_default (s : Server)
    (results : list multiplexer.Result) :
  let resolved :=
    match last (filter
                  (fun r => http.Get (http.RespHeader (multiplexer.HttpResponse r))
                                     "X-View-Proxy-Title" <> "")
                  results) with
    | Some r => http.Get (http.RespHeader (multiplexer.HttpResponse r))
                         "X-View-Proxy-Title"
    | None => DefaultPageTitle s
    end in
  SetFragments_pageTitle s results = resolved /\
  snd (ServeHTTP_loop s results) = resolved.
Proof.
  intros resolved. subst resolved.
  change (fun r => http.Get (http.RespHeader (multiplexer.HttpResponse r))
                            "X-View-Proxy-Title" <> "")
    with (fun r => title_of r <> "").
  split.
  - unfold SetFragments_pageTitle, SetFragments_loop.
    rewrite fold_fragment_step_title.
    destruct (last (filter (fun r => title_of r <> "") results)) as [r|] eqn:E;
      [|done].
    apply last_Some_elem_of, list_elem_of_filter in E as [Hr _].
    apply String.eqb_neq in Hr. fold (title_of r). by rewrite Hr.
  - unfold ServeHTTP_loop. by rewrite fold_fragment_step_title.
Qed.

Lemma SetFragments_loop_content (results : list multiplexer.Result) :
  fst (SetFragments_loop results) = concat (multiplexer.Body <$> results).
Proof. unfold SetFragments_loop. by rewrite fold_fragment_step_content. Qed.

(** C7, as amended. The fragment bodies are concatenated in input order.
    Without a layout body the outbound body is that buffer. With one, the
    first occurrence of the content token in the layout, if any, is
    replaced by the buffer, and then the first occurrence of the title
    token in the buffer so obtained, if any, is replaced by the resolved
    title; nothing else changes. *)
Theorem SetFragments_body (rb : responseBuilder)
    (results : list multiplexer.Result) :
  let content := concat (multiplexer.Body <$> results) in
  let title := bytes_of (SetFragments_pageTitle (server rb) results) in
  fst (SetFragments_loop results) = content /\
  (body rb = [] -> body (SetFragments rb results) = content) /\
  (body rb <> [] ->
   exists mid,
     go_bytes.replaced_first CONTENT_TOKEN content (body rb) mid /\
     go_bytes.replaced_first TITLE_TOKEN title mid
                             (body (SetFragments rb results))).
Proof.
  intros content title. split; [apply SetFragments_loop_content|]. split.
  - intros Hb. unfold SetFragments. rewrite Hb. cbn.
    apply SetFragments_loop_content.
  - intros Hb. unfold SetFragments. cbn [body].
    destruct (body rb) as [|c l] eqn:E; [done|]. cbn [length Nat.eqb].
    rewrite SetFragments_loop_content.
    exists (go_bytes.Replace1 (c :: l) CONTENT_TOKEN content).
    split; apply Replace1_replaced_first.
Qed.

(** The layout and fragments of the assembled-body example, with the
    tokens of the code. *)
Lemma SetFragments_body_witness :
  let rb := testlib.builder "Home"
    "<html>{{{VIEW_PROXY_CONTENT}}} - {{{VIEW_PROXY_PAGE_TITLE}}}</html>" in
  let results := [testlib.result "/a" "" "A"; testlib.result "/b" "" "B"] in
  body rb <> [] /\
  exists mid,
    go_bytes.replaced_first CONTENT_TOKEN
      (concat (multiplexer.Body <$> results)) (body rb) mid /\
    go_bytes.replaced_first TITLE_TOKEN
      (bytes_of (SetFragments_pageTitle (server rb) results)) mid
      (body (SetFragments rb results)).
Proof.
  intros rb results.
  assert (Hb : body rb <> []) by discriminate.
  split; [exact Hb|].
  exact (proj2 (proj2 (SetFragments_body rb results)) Hb).
Defined.

Example SetFragments_example :
  string_of
    (body (SetFragments
             (testlib.builder "Home"
                "<html>{{{VIEW_PROXY_CONTENT}}} - {{{VIEW_PROXY_PAGE_TITLE}}}</html>")
             [testlib.result "/a" "" "A"; testlib.result "/b" "" "B"]))
  = "<html>AB - Home</html>".
Proof. vm_compute. reflexivity. Qed.

Example SetFragments_no_layout_example :
  string_of
    (body (SetFragments (testlib.builder "Home" "")
             [testlib.result "/a" "First" "A"; testlib.result "/b" "" "B"]))
  = "AB".
Proof. vm_compute. reflexivity. Qed.

Example pageTitle_example :
  SetFragments_pageTitle (testlib.server "Home")
    [testlib.result "/a" "First" "A"; testlib.result "/b" "Second" "B";
     testlib.result "/c" "" "C"]
  = "Second".
Proof. vm_compute. reflexivity. Qed.

Lemma no_occurrence_before (old s : list byte) (n : nat) :
  forallb (fun i => negb (go_bytes.HasPrefix (drop i s) old)) (seq 0 n) = true ->
  forall i, (i < n)%nat -> ~ go_bytes.occurs_at old s i.
Proof.
  intros Hall i Hi Hocc. apply occurs_at_drop in Hocc as [_ Hocc].
  rewrite forallb_forall in Hall.
  specialize (Hall i). rewrite Hocc in Hall. discriminate Hall.
  apply in_seq. lia.
Qed.

(** C7 as stated fails when a fragment body carries the title token: the
    title replaces the token inside the inserted content, and the title
    token of the layout stays. Layout [CONTENT|TITLE], one fragment whose
    body is the title token, default title [Home]: the claim gives
    [TITLE|Home], the code [Home|TITLE]. *)
Lemma layout_tokens_counterexample :
  ~ (forall (rb : responseBuilder) (results : list multiplexer.Result)
            (pre mid post : list byte),
       go_bytes.first_occurrence CONTENT_TOKEN (body rb)
                                 pre (mid ++ TITLE_TOKEN ++ post) ->
       go_bytes.first_occurrence TITLE_TOKEN (body rb)
                                 (pre ++ CONTENT_TOKEN ++ mid) post ->
       body (SetFragments rb results)
       = pre ++ concat (multiplexer.Body <$> results) ++ mid
             ++ bytes_of (SetFragments_pageTitle (server rb) results) ++ post).
Proof.
  intros H.
  specialize (H (testlib.builder "Home"
                   "{{{VIEW_PROXY_CONTENT}}}|{{{VIEW_PROXY_PAGE_TITLE}}}")
                [testlib.result "/a" "" "{{{VIEW_PROXY_PAGE_TITLE}}}"]
                [] (bytes_of "|") []).
  assert (Hcode :
    string_of (body (SetFragments
                 (testlib.builder "Home"
                    "{{{VIEW_PROXY_CONTENT}}}|{{{VIEW_PROXY_PAGE_TITLE}}}")
                 [testlib.result "/a" "" "{{{VIEW_PROXY_PAGE_TITLE}}}"]))
    = "Home|{{{VIEW_PROXY_PAGE_TITLE}}}") by (vm_compute; reflexivity).
  rewrite H in Hcode.
  - vm_compute in Hcode. discriminate Hcode.
  - split; [vm_compute; reflexivity|]. intros i Hi. simpl in Hi. lia.
  - split; [vm_compute; reflexivity|].
    apply no_occurrence_before. vm_compute. reflexivity.
Qed.

End AssemblerFacts.

(** ** A single fetch: signing and body decoding *)

Section FetchFacts.

Import multiplexer.
Context {lib : StdLib}.

(** The copy loop of [headersWithHmac] rebuilds the header map. *)
Lemma copy_loop_id (h : http.Header) :
  map_fold (fun name value acc => <[name := value]> acc) ∅ h = h.
Proof.
  apply (map_fold_weak_ind (fun acc m => acc = m)); [done|].
  by intros name value m acc _ ->.
Qed.

Lemma pathFromFullUrl_parsed (fullUrl : string) (u : net_url.URL) :
  url_Parse fullUrl = Some u ->
  pathFromFullUrl fullUrl = Ret (signed_path u).
Proof.
  intros Hu. unfold pathFromFullUrl, signed_path. rewrite Hu.
  by destruct (String.eqb (net_url.RawQuery u) "").
Qed.

Lemma headersWithHmac_parsed (r : Request) (now : Z) (url_ : string)
    (u : net_url.URL) :
  url_Parse url_ = Some u ->
  headersWithHmac r now url_
  = Ret (<["X-Authorization-Time" := [fmt.Sprintf_d now]]>
           (<["Authorization" :=
                [hex.EncodeToString
                   (hmac.Sum (bytes_of (HmacSecret r))
                      (bytes_of (signed_path u +:+ "," +:+ fmt.Sprintf_d now)))]]>
              (Header r))).
Proof.
  intros Hu. unfold headersWithHmac.
  rewrite (pathFromFullUrl_parsed _ _ Hu), copy_loop_id. reflexivity.
Qed.

Lemma headersWithHmac_authorization (r : Request) (now : Z) (url_ : string)
    (u : net_url.URL) (h : http.Header) :
  url_Parse url_ = Some u ->
  headersWithHmac r now url_ = Ret h ->
  h !! "Authorization"
  = Some [hex.EncodeToString
            (hmac.Sum (bytes_of (HmacSecret r))
               (bytes_of (signed_path u +:+ "," +:+ fmt.Sprintf_d now)))].
Proof.
  intros Hu Hh. rewrite (headersWithHmac_parsed _ _ _ _ Hu) in Hh.
  injection Hh as <-. rewrite lookup_insert_ne by done.
  by rewrite lookup_insert_eq.
Qed.

(** C6, as amended. For a URL that parses into path [urlPath] and raw
    query [rawQuery], [headersWithHmac] returns the request headers with
    [Authorization] set to the hex encoding of HMAC-SHA256, keyed by the
    secret, of ["{urlPath}?{rawQuery},{T}"] when the raw query is not
    empty and of ["{urlPath},{T}"] when it is empty, with
    [X-Authorization-Time] set to [T], the decimal timestamp, and with
    every other header as in the request. When a secret is configured
    these are the headers the fetch task hands to the transport. *)
Theorem headersWithHmac_signs_path (r : Request) (w : World) (i : nat)
    (f : fragment) (u : net_url.URL) :
  url_Parse (url f) = Some u ->
  let T := fmt.Sprintf_d (now w i) in
  let message :=
    if String.eqb (net_url.RawQuery u) ""
    then net_url.Path u +:+ "," +:+ T
    else (net_url.Path u +:+ "?" +:+ net_url.RawQuery u) +:+ "," +:+ T in
  exists h,
    headersWithHmac r (now w i) (url f) = Ret h /\
    h !! "Authorization"
    = Some [hex.EncodeToString
              (hmac.Sum (bytes_of (HmacSecret r)) (bytes_of message))] /\
    h !! "X-Authorization-Time" = Some [T] /\
    (forall name, name <> "Authorization" -> name <> "X-Authorization-Time" ->
                  h !! name = Header r !! name) /\
    (HmacSecret r <> "" ->
     run_task r w i f
     = match fetchUrl r (elapsed w i) "GET" (url f) h with
       | Fetched result => TaskOk result
       | Failed err => TaskErr err
       end).
Proof.
  intros Hu T message. eexists. split; [by apply headersWithHmac_parsed|].
  split; [|split; [|split]].
  - rewrite lookup_insert_ne by done. rewrite lookup_insert_eq.
    subst message T. unfold signed_path.
    by destruct (String.eqb (net_url.RawQuery u) "").
  - by rewrite lookup_insert_eq.
  - intros name H1 H2. by rewrite !lookup_insert_ne.
  - intros Hsecret. unfold run_task, task_headers.
    apply String.eqb_neq in Hsecret. rewrite Hsecret. cbn [negb].
    by rewrite (headersWithHmac_parsed _ _ _ _ Hu).
Qed.

(** *** Body decoding *)

Lemma fetchUrl_response (r : Request) (duration : Z) (method url_ : string)
    (headers : http.Header) (resp : http.Response) :
  Transport r method url_ headers = inr resp ->
  fetchUrl r duration method url_ headers
  = match read_body resp with
    | inl msg => Failed (LibraryError msg)
    | inr responseBody =>
        check_status r
          {| Url := url_; Duration := duration; HttpResponse := resp;
             Body := responseBody; StatusCode := http.RespStatusCode resp |}
    end.
Proof. intros Ht. unfold fetchUrl. by rewrite Ht. Qed.

(** A body without gzip encoding is passed through. *)
Lemma read_body_identity (resp : http.Response) :
  http.Get (http.RespHeader resp) "Content-Encoding" <> "gzip" ->
  http.BodyReadError resp = None ->
  read_body resp = inr (http.RawBody resp).
Proof.
  intros Hne Hok. unfold read_body.
  apply String.eqb_neq in Hne. by rewrite Hne, Hok.
Qed.

(** A gzip body that inflates without error is decoded. *)
Lemma read_body_gzip (resp : http.Response) (rd : gzipReader)
    (plain : list byte) :
  http.Get (http.RespHeader resp) "Content-Encoding" = "gzip" ->
  gzip_NewReader (http.RawBody resp) = inr rd ->
  gzip_ReadAll rd = (plain, None) ->
  read_body resp = inr plain.
Proof.
  intros Hgz Hrd Hall. unfold read_body.
  apply String.eqb_eq in Hgz. by rewrite Hgz, Hrd, Hall.
Qed.

(** A malformed gzip header is an error of the fetch. *)
Lemma fetchUrl_gzip_bad_header (r : Request) (duration : Z)
    (method url_ : string) (headers : http.Header) (resp : http.Response)
    (msg : string) :
  Transport r method url_ headers = inr resp ->
  http.Get (http.RespHeader resp) "Content-Encoding" = "gzip" ->
  gzip_NewReader (http.RawBody resp) = inl msg ->
  fetchUrl r duration method url_ headers = Failed (LibraryError msg).
Proof.
  intros Ht Hgz Hrd. rewrite (fetchUrl_response _ _ _ _ _ _ Ht).
  unfold read_body. apply String.eqb_eq in Hgz. by rewrite Hgz, Hrd.
Qed.

(** A read error on a body that is not gzip-encoded is an error of the
    fetch. *)
Lemma fetchUrl_body_read_error (r : Request) (duration : Z)
    (method url_ : string) (headers : http.Header) (resp : http.Response)
    (msg : string) :
  Transport r method url_ headers = inr resp ->
  http.Get (http.RespHeader resp) "Content-Encoding" <> "gzip" ->
  http.BodyReadError resp = Some msg ->
  fetchUrl r duration method url_ headers = Failed (LibraryError msg).
Proof.
  intros Ht Hne Herr. rewrite (fetchUrl_response _ _ _ _ _ _ Ht).
  unfold read_body. apply String.eqb_neq in Hne. by rewrite Hne, Herr.
Qed.

(** Compressing and fetching gives the original bytes back, for any
    compressor the gzip reader inverts. *)
Lemma fetchUrl_gzip_roundtrip (compress : list byte -> list byte)
    (r : Request) (duration : Z) (method url_ : string)
    (headers : http.Header) (resp : http.Response) (plain : list byte) :
  (forall b, exists rd, gzip_NewReader (compress b) = inr rd /\
                        gzip_ReadAll rd = (b, None)) ->
  Transport r method url_ headers = inr resp ->
  http.Get (http.RespHeader resp) "Content-Encoding" = "gzip" ->
  http.RawBody resp = compress plain ->
  200 <= http.RespStatusCode resp <= 299 ->
  exists result,
    fetchUrl r duration method url_ headers = Fetched result /\
    Body result = plain.
Proof.
  intros Hinv Ht Hgz Hraw Hst. destruct (Hinv plain) as (rd & Hrd & Hall).
  rewrite (fetchUrl_response _ _ _ _ _ _ Ht).
  rewrite (read_body_gzip resp rd plain) by (by rewrite ?Hraw).
  unfold check_status. cbn [StatusCode].
  replace (http.RespStatusCode resp <? 200) with false by lia.
  replace (http.RespStatusCode resp >? 299) with false by lia.
  rewrite andb_false_r. by eexists.
Qed.

(** C9 at its failing input: the response declares gzip, the header of
    the stream is well formed and inflating stops with an error. The
    fetch returns a result, without error, whose body is what had been
    inflated when the error occurred. *)
Theorem fetchUrl_gzip_read_error_dropped (r : Request) (duration : Z)
    (method url_ : string) (headers : http.Header) (resp : http.Response)
    (rd : gzipReader) (partial : list byte) (msg : string) :
  Transport r method url_ headers = inr resp ->
  http.Get (http.RespHeader resp) "Content-Encoding" = "gzip" ->
  gzip_NewReader (http.RawBody resp) = inr rd ->
  gzip_ReadAll rd = (partial, Some msg) ->
  200 <= http.RespStatusCode resp <= 299 ->
  fetchUrl r duration method url_ headers
  = Fetched {| Url := url_; Duration := duration; HttpResponse := resp;
               Body := partial; StatusCode := http.RespStatusCode resp |}.
Proof.
  intros Ht Hgz Hrd Hall Hst. rewrite (fetchUrl_response _ _ _ _ _ _ Ht).
  unfold read_body. apply String.eqb_eq in Hgz. rewrite Hgz, Hrd, Hall.
  unfold check_status. cbn [StatusCode].
  replace (http.RespStatusCode resp <? 200) with false by lia.
  replace (http.RespStatusCode resp >? 299) with false by lia.
  by rewrite andb_false_r.
Qed.

End FetchFacts.

Section FetchExamples.

Import multiplexer.

(** Path [/frag], query [x=1], secret [S]. *)
Lemma headersWithHmac_signs_path_witness :
  let r := testlib.signed_request "S" (testlib.table_transport []) ["/frag?x=1"] in
  let w := testlib.world [] in
  exists h,
    headersWithHmac (lib := testlib.lib) r (now w 0) "/frag?x=1" = Ret h /\
    h !! "Authorization"
    = Some [hex.EncodeToString
              (hmac.Sum (bytes_of "S") (bytes_of "/frag?x=1,1700000000"))] /\
    h !! "X-Authorization-Time" = Some ["1700000000"].
Proof.
  intros r w.
  destruct (headersWithHmac_signs_path (lib := testlib.lib) r w 0
              (mkfragment "/frag?x=1" ∅)
              {| net_url.Prefix := ""; net_url.Path := "/frag";
                 net_url.RawQuery := "x=1" |})
    as (h & Hh & Hauth & Htime & _).
  - vm_compute. reflexivity.
  - exists h. split; [exact Hh|]. split; [exact Hauth|exact Htime].
Defined.

(** C6 as stated fails for a URL without query: the signed string is
    [/frag,T], not [/frag?,T]. *)
Lemma empty_query_counterexample :
  ~ (forall (lib : StdLib) (r : Request) (now : Z) (url_ : string)
            (u : net_url.URL),
       url_Parse url_ = Some u ->
       exists h,
         headersWithHmac r now url_ = Ret h /\
         h !! "Authorization"
         = Some [hex.EncodeToString
                   (hmac.Sum (bytes_of (HmacSecret r))
                      (bytes_of ((net_url.Path u +:+ "?" +:+ net_url.RawQuery u)
                                 +:+ "," +:+ fmt.Sprintf_d now)))]).
Proof.
  intros H.
  assert (Hu : url_Parse (StdLib := testlib.lib) "/frag"
               = Some {| net_url.Prefix := ""; net_url.Path := "/frag";
                         net_url.RawQuery := "" |})
    by (vm_compute; reflexivity).
  destruct (H testlib.lib
              (testlib.signed_request "S" (testlib.table_transport []) ["/frag"])
              1700000000 "/frag" _ Hu) as (h & Hh & Hauth).
  rewrite (headersWithHmac_authorization (lib := testlib.lib) _ _ _ _ _ Hu Hh)
    in Hauth.
  vm_compute in Hauth. discriminate Hauth.
Qed.

(** Signing [/frag] with query [x=1] and secret [S] at time [T], on a
    full URL. *)
Example headersWithHmac_example :
  match headersWithHmac (lib := testlib.lib)
          (testlib.signed_request "S" (testlib.table_transport []) [])
          1700000000 "http://localhost:3000/frag?x=1" with
  | Ret h => (http.Get h "Authorization", http.Get h "X-Authorization-Time",
              http.Get h "Accept")
  | Panic _ => ("", "", "")
  end
  = (hex.EncodeToString
       (hmac.Sum (bytes_of "S") (bytes_of "/frag?x=1,1700000000")),
     "1700000000", "text/html").
Proof. vm_compute. reflexivity. Qed.

(** A gzip response cut short after a well-formed header: the fetch
    succeeds with the two bytes that could be read. *)
Lemma fetchUrl_gzip_read_error_dropped_witness :
  let resp := testlib.gzip_response testlib.truncated_stream in
  let r := testlib.request (testlib.table_transport [("/a", resp)]) ["/a"] in
  fetchUrl (lib := testlib.lib) r 0 "GET" "/a" ∅
  = Fetched {| Url := "/a"; Duration := 0; HttpResponse := resp;
               Body := bytes_of "ab"; StatusCode := http.RespStatusCode resp |}.
Proof.
  intros resp r.
  apply (fetchUrl_gzip_read_error_dropped (lib := testlib.lib) r 0 "GET" "/a" ∅
           resp (x05 :: bytes_of "ab") (bytes_of "ab") "unexpected EOF").
  - vm_compute. reflexivity.
  - vm_compute. reflexivity.
  - vm_compute. reflexivity.
  - vm_compute. reflexivity.
  - vm_compute. split; discriminate.
Defined.

(** The framing double is inverted by its reader, so a compressed body
    comes back byte for byte. *)
Example fetchUrl_gzip_roundtrip_example :
  let resp := testlib.gzip_response (testlib.compress (bytes_of "<p>hello</p>")) in
  let r := testlib.request (testlib.table_transport [("/a", resp)]) ["/a"] in
  match fetchUrl (lib := testlib.lib) r 0 "GET" "/a" ∅ with
  | Fetched result => string_of (Body result)
  | Failed _ => ""
  end = "<p>hello</p>".
Proof. vm_compute. reflexivity. Qed.

End FetchExamples.

(** ** The aggregate fetch *)

Section SortFacts.

Import multiplexer.
Context {A : Type} (key : A -> Z).

Local Abbreviation less := (fun x y : A => key x <? key y).
Local Abbreviation le := (fun x y : A => key x <= key y).

Lemma stable_insert_Permutation (x : A) (l : list A) :
  stable_insert less x l ≡ₚ x :: l.
Proof.
  induction l as [|y l IH]; [done|]. cbn [stable_insert].
  destruct (less y x); [|done]. rewrite IH. apply Permutation_swap.
Qed.

Lemma SliceStable_Permutation (l : list A) : SliceStable less l ≡ₚ l.
Proof.
  induction l as [|x l IH]; [done|]. cbn [SliceStable].
  by rewrite stable_insert_Permutation, IH.
Qed.




End SortFacts.

Section DoFacts.

Import multiplexer.
Context {lib : StdLib}.





(** The supervisor consumes a run of successful completions: each one
    adds its result to [resultsCh] and takes one off the wait group. *)
Lemma supervise_arrivals (r : Request) (w : World) (pre rest : list event)
    (results : list Result) :
  arrivals r w pre = Some results ->
  forall wg resultsCh,
    (length pre <= wg)%nat ->
    supervise r w wg resultsCh (pre ++ rest)
    = supervise r w (wg - length pre) (resultsCh ++ results) rest.
Proof.
  revert results. induction pre as [|e pre IH]; intros results Harr wg ch Hwg.
  - injection Harr as <-. by rewrite Nat.sub_0_r, app_nil_r.
  - cbn [arrivals] in Harr.
    destruct (event_result r w e) as [result|] eqn:Ee; [|done].
    destruct (arrivals r w pre) as [results'|] eqn:Ea; [|done].
    injection Harr as <-.
    destruct wg as [|wg]; [simpl in Hwg; lia|].
    destruct e as [i| |]; [|done..]. cbn [event_result] in Ee.
    cbn [app supervise length Nat.sub].
    destruct (fragments r !! i) as [f|]; [|done].
    destruct (run_task r w i f); try done. injection Ee as ->.
    rewrite (IH results' eq_refl) by (simpl in Hwg; lia).
    by rewrite <- app_assoc.
Qed.

Lemma arrivals_length (r : Request) (w : World) (events : list event)
    (results : list Result) :
  arrivals r w events = Some results -> length results = length events.
Proof.
  revert results. induction events as [|e events IH]; intros results Harr.
  - by injection Harr as <-.
  - cbn [arrivals] in Harr. destruct (event_result r w e); [|done].
    destruct (arrivals r w events) as [results'|]; [|done].
    injection Harr as <-. simpl. by rewrite (IH results').
Qed.

(** A successful completion is the event of a task that exists. *)
Lemma event_result_index (r : Request) (w : World) (e : event)
    (result : Result) :
  event_result r w e = Some result ->
  exists i, e = Finished i /\ (i < length (fragments r))%nat.
Proof.
  destruct e as [i| |]; [|done..]. cbn [event_result].
  destruct (fragments r !! i) as [f|] eqn:Ei; [|done].
  intros _. exists i. split; [done|]. by eapply lookup_lt_Some.
Qed.

Lemma arrivals_indices (r : Request) (w : World) (events : list event)
    (results : list Result) :
  arrivals r w events = Some results ->
  forall e, e ∈ events ->
            exists i, e = Finished i /\ (i < length (fragments r))%nat.
Proof.
  revert results. induction events as [|e0 events IH]; intros results Harr e He.
  - by apply not_elem_of_nil in He.
  - cbn [arrivals] in Harr.
    destruct (event_result r w e0) as [result|] eqn:Ee; [|done].
    destruct (arrivals r w events) as [results'|]; [|done].
    apply elem_of_cons in He as [->|He].
    + by eapply event_result_index.
    + by eapply IH.
Qed.

(** In a trace where no task finishes twice, a task that is still to
    finish leaves the wait group positive. *)
Lemma completions_before (r : Request) (w : World) (pre : list event)
    (results : list Result) (i : nat) :
  arrivals r w pre = Some results ->
  NoDup (pre ++ [Finished i]) ->
  (i < length (fragments r))%nat ->
  (length pre < length (fragments r))%nat.
Proof.
  intros Harr Hnd Hi.
  assert (Hsub : pre ++ [Finished i] ⊆+ Finished <$> seq 0 (length (fragments r))).
  { apply NoDup_submseteq; [done|]. intros e He.
    apply elem_of_app in He as [He|He].
    - destruct (arrivals_indices _ _ _ _ Harr e He) as (j & -> & Hj).
      apply list_elem_of_fmap. exists j. split; [done|].
      apply elem_of_seq. lia.
    - apply list_elem_of_singleton in He as ->.
      apply list_elem_of_fmap. exists i. split; [done|].
      apply elem_of_seq. lia. }
  apply submseteq_length in Hsub.
  rewrite length_app, length_fmap, length_seq in Hsub. simpl in Hsub. lia.
Qed.


Lemma Do_live (r : Request) (w : World) :
  0 < Timeout r ->
  fragments r <> [] ->
  Do r w = supervise r w (length (fragments r)) [] (trace w).
Proof.
  intros Ht Hsome. unfold Do. replace (Timeout r <=? 0) with false by lia.
  by destruct (fragments r).
Qed.

(** The ways through [Do]: a context that is born done, the supervisor
    waiting in [select], or, with no fragment, the context ending before
    [done] is closed. *)
Lemma Do_cases (r : Request) (w : World) :
  (Timeout r <= 0 /\
   Do r w = if (length (fragments r) =? 0)%nat && select_picks_done w
            then collect r []
            else Returned (SliceOf []) (Some DeadlineExceeded))
  \/ (0 < Timeout r /\
      Do r w = supervise r w (length (fragments r)) [] (trace w))
  \/ (0 < Timeout r /\ fragments r = [] /\
      exists events, trace w = DeadlineElapsed :: events /\
                     Do r w = Returned (SliceOf []) (Some DeadlineExceeded))
  \/ (0 < Timeout r /\ fragments r = [] /\
      exists events, trace w = CallerCancelled :: events /\
                     Do r w = Returned (SliceOf []) (Some Canceled)).
Proof.
  unfold Do. destruct (Z.leb_spec (Timeout r) 0) as [Ht|Ht]; [by left|].
  right. destruct (fragments r) as [|f frags]; [|by left].
  destruct (trace w) as [|[i| |] events]; cbn [length].
  - by left.
  - by left.
  - right. left. split; [done|]. split; [done|]. by eexists.
  - right. right. split; [done|]. split; [done|]. by eexists.
Qed.




Lemma fragments_nonempty (r : Request) (k : nat) :
  (k < length (fragments r))%nat -> fragments r <> [].
Proof. intros Hk Hnone. rewrite Hnone in Hk. simpl in Hk. lia. Qed.

(** *** Strict mode *)

Lemma fetchUrl_strict_non2xx (r : Request) (duration : Z)
    (method url_ : string) (headers : http.Header) (resp : http.Response)
    (responseBody : list byte) :
  Non2xxErrors r = true ->
  Transport r method url_ headers = inr resp ->
  read_body resp = inr responseBody ->
  http.RespStatusCode resp < 200 \/ 299 < http.RespStatusCode resp ->
  fetchUrl r duration method url_ headers
  = Failed (ResultError
              {| Url := url_; Duration := duration; HttpResponse := resp;
                 Body := responseBody;
                 StatusCode := http.RespStatusCode resp |}).
Proof.
  intros Hstrict Ht Hbody Hst.
  rewrite (fetchUrl_response _ _ _ _ _ _ Ht), Hbody.
  unfold check_status. rewrite Hstrict. cbn [StatusCode andb].
  replace (_ || _) with true; [done|].
  symmetry. apply orb_true_iff. lia.
Qed.

(** C2. Under strict mode, a fetch whose response has a status outside
    200..299 fails with a [ResultError] that wraps the result built from
    that response (URL, status, response with its headers, decoded body).
    When that completion is the first event that is not a successful
    completion, in a trace where no task finishes twice, [Do] returns this
    error and an allocated result list of length zero. *)
Theorem Do_strict_non2xx_fails_fast (r : Request) (w : World) (i : nat)
    (f : fragment) (h : http.Header) (resp : http.Response)
    (responseBody : list byte) (pre post : list event)
    (results : list Result) :
  Non2xxErrors r = true ->
  0 < Timeout r ->
  fragments r !! i = Some f ->
  task_headers r w i f = Ret h ->
  Transport r "GET" (url f) h = inr resp ->
  read_body resp = inr responseBody ->
  http.RespStatusCode resp < 200 \/ 299 < http.RespStatusCode resp ->
  trace w = pre ++ Finished i :: post ->
  NoDup (trace w) ->
  arrivals r w pre = Some results ->
  let result :=
    {| Url := url f; Duration := elapsed w i; HttpResponse := resp;
       Body := responseBody; StatusCode := http.RespStatusCode resp |} in
  fetchUrl r (elapsed w i) "GET" (url f) h = Failed (ResultError result) /\
  Do r w = Returned (SliceOf []) (Some (ResultError result)).
Proof.
  intros Hstrict Ht Hi Hh Hresp Hbody Hst Htrace Hnd Harr result.
  assert (Hfetch : fetchUrl r (elapsed w i) "GET" (url f) h
                   = Failed (ResultError result))
    by by apply fetchUrl_strict_non2xx.
  split; [done|].
  assert (Hlen : (length pre < length (fragments r))%nat).
  { apply (completions_before r w pre results i); [done| |by eapply lookup_lt_Some].
    rewrite Htrace, cons_middle, app_assoc in Hnd.
    by apply NoDup_app in Hnd as [? _]. }
  rewrite (Do_live _ _ Ht (fragments_nonempty _ _ Hlen)), Htrace.
  rewrite (supervise_arrivals _ _ _ _ _ Harr) by lia.
  destruct (length (fragments r) - length pre)%nat eqn:E; [lia|].
  cbn [supervise]. rewrite Hi. unfold run_task. by rewrite Hh, Hfetch.
Qed.

(** *** The deadline *)

(** C3. When the deadline fires while the supervisor is still waiting,
    that is, after successful completions of only some of the fragments
    and before any failure, or at once for a timeout that is not
    positive, [Do] returns [context.DeadlineExceeded] and an allocated
    result list of length zero. *)
Theorem Do_deadline_returns_timeout (r : Request) (w : World) :
  deadline_first r w ->
  Do r w = Returned (SliceOf []) (Some DeadlineExceeded).
Proof.
  intros [[Ht Hfrags]|(Ht & pre & post & results & Htrace & Harr & Hlen)].
  - unfold Do. replace (Timeout r <=? 0) with true by lia.
    destruct (fragments r); [done|]. reflexivity.
  - rewrite (Do_live _ _ Ht (fragments_nonempty _ _ Hlen)), Htrace.
    rewrite (supervise_arrivals _ _ _ _ _ Harr) by lia.
    by destruct (length (fragments r) - length pre)%nat eqn:E; [lia|].
Qed.

Lemma collect_all_or_none (r : Request) (resultsCh : list Result)
    (s : slice Result) (err : option error) :
  collect r resultsCh = Returned s err ->
  err = None /\ is_nil_slice s = false /\
  length (elems_of s) = length (fragments r).
Proof.
  unfold collect.
  destruct (Nat.ltb_spec (length resultsCh) (length (fragments r))); [done|].
  intros [= <- <-]. split; [done|]. split; [done|]. cbn [elems_of].
  rewrite (Permutation_length (SliceStable_Permutation _ _)).
  rewrite length_take. lia.
Qed.

(** All fragments or none: whenever [Do] returns, it returns either an
    error with an empty result list, or no error with one result per
    fragment. *)
Lemma Do_all_or_none (r : Request) (w : World) (s : slice Result)
    (err : option error) :
  Do r w = Returned s err ->
  is_nil_slice s = false /\
  match err with
  | Some _ => elems_of s = []
  | None => length (elems_of s) = length (fragments r)
  end.
Proof.
  assert (Hsup : forall events wg ch,
             supervise r w wg ch events = Returned s err ->
             is_nil_slice s = false /\
             match err with
             | Some _ => elems_of s = []
             | None => length (elems_of s) = length (fragments r)
             end).
  { induction events as [|e events IH]; intros wg ch Hret.
    - destruct wg; [|done]. cbn in Hret.
      by apply collect_all_or_none in Hret as (-> & ? & ?).
    - destruct wg as [|wg].
      { cbn in Hret. by apply collect_all_or_none in Hret as (-> & ? & ?). }
      cbn [supervise] in Hret. destruct e as [i| |].
      + destruct (fragments r !! i) as [f|]; [|by eapply IH].
        destruct (run_task r w i f); [by eapply IH| |done].
        by injection Hret as <- <-.
      + by injection Hret as <- <-.
      + by injection Hret as <- <-. }
  destruct (Do_cases r w)
    as [[_ ->]|[[_ ->]|[(_ & _ & ? & _ & ->)|(_ & _ & ? & _ & ->)]]].
  - destruct (_ && _).
    + intros Hret. by apply collect_all_or_none in Hret as (-> & ? & ?).
    + by intros [= <- <-].
  - apply Hsup.
  - by intros [= <- <-].
  - by intros [= <- <-].
Qed.

(** *** No fragment *)


(** With a timeout that is not positive the context is done from the
    start, and the same request can time out. *)
Lemma Do_no_fragments_expired (r : Request) (w : World) :
  fragments r = [] ->
  Timeout r <= 0 ->
  select_picks_done w = false ->
  Do r w = Returned (SliceOf []) (Some DeadlineExceeded).
Proof.
  intros Hnone Ht Hpick. unfold Do.
  replace (Timeout r <=? 0) with true by lia.
  by rewrite Hpick, andb_false_r.
Qed.

(** *** Input order *)




End DoFacts.

Section DoExamples.

Import multiplexer.

(** C1 at its failing input: the fragments [/a], [/b], [/a], every fetch
    succeeding. In each of the six completion orders [Do] returns the
    results for [/a], [/a], [/b]: slot one holds a result for [/a] where
    the input has [/b]. *)
Theorem Do_duplicate_urls_misordered :
  let transport :=
    testlib.table_transport
      [("/a", testlib.ok_response [] "A"); ("/b", testlib.ok_response [] "B")] in
  let r := testlib.request transport ["/a"; "/b"; "/a"] in
  launched r = ["/a"; "/b"; "/a"] /\
  Forall (fun order =>
            result_urls (Do (lib := testlib.lib) r
                            (testlib.world (Finished <$> order)))
            = Some ["/a"; "/a"; "/b"])
         (permutations [0; 1; 2]%nat).
Proof.
  intros transport r. split; [vm_compute; reflexivity|].
  apply Forall_forall. intros order Horder.
  vm_compute in Horder.
  repeat (apply elem_of_cons in Horder as [->|Horder];
          [vm_compute; reflexivity|]).
  by apply not_elem_of_nil in Horder.
Qed.

(** Distinct URLs completing in reverse order come back in input order. *)
Example Do_input_order_example :
  let transport :=
    testlib.table_transport
      [("/a", testlib.ok_response [] "A"); ("/b", testlib.ok_response [] "B");
       ("/c", testlib.ok_response [] "C")] in
  result_urls (Do (lib := testlib.lib)
                  (testlib.request transport ["/a"; "/b"; "/c"])
                  (testlib.world [Finished 2; Finished 1; Finished 0]))
  = Some ["/a"; "/b"; "/c"].
Proof. vm_compute. reflexivity. Qed.

(** Three fragments, the second answering 500 after the first has
    completed. *)
Lemma Do_strict_non2xx_fails_fast_witness :
  let resp := testlib.status_response 500 "boom" in
  let transport :=
    testlib.table_transport
      [("/a", testlib.ok_response [] "A"); ("/b", resp);
       ("/c", testlib.ok_response [] "C")] in
  let r := testlib.request transport ["/a"; "/b"; "/c"] in
  let w := testlib.world [Finished 0; Finished 1; Finished 2] in
  let result :=
    {| Url := "/b"; Duration := elapsed w 1; HttpResponse := resp;
       Body := bytes_of "boom"; StatusCode := http.RespStatusCode resp |} in
  fetchUrl (lib := testlib.lib) r (elapsed w 1) "GET" "/b" ∅
  = Failed (ResultError result) /\
  Do (lib := testlib.lib) r w = Returned (SliceOf []) (Some (ResultError result)).
Proof.
  intros resp transport r w result.
  apply (Do_strict_non2xx_fails_fast (lib := testlib.lib) r w 1
           (mkfragment "/b" ∅) ∅ resp (bytes_of "boom")
           [Finished 0] [Finished 2]
           [testlib.result "/a" "" "A"]).
  - reflexivity.
  - reflexivity.
  - vm_compute. reflexivity.
  - vm_compute. reflexivity.
  - vm_compute. reflexivity.
  - vm_compute. reflexivity.
  - right. vm_compute. reflexivity.
  - reflexivity.
  - apply (bool_decide_unpack _). vm_compute. reflexivity.
  - vm_compute. reflexivity.
Defined.

(** Two fragments; the timer fires after the first has completed. *)
Lemma Do_deadline_returns_timeout_witness :
  let transport :=
    testlib.table_transport
      [("/a", testlib.ok_response [] "A"); ("/b", testlib.ok_response [] "B")] in
  let r := testlib.request transport ["/a"; "/b"] in
  let w := testlib.world [Finished 0; DeadlineElapsed; Finished 1] in
  Do (lib := testlib.lib) r w = Returned (SliceOf []) (Some DeadlineExceeded).
Proof.
  intros transport r w.
  apply (Do_deadline_returns_timeout (lib := testlib.lib) r w).
  right. split; [reflexivity|].
  exists [Finished 0], [Finished 1], [testlib.result "/a" "" "A"].
  split; [reflexivity|]. split; [vm_compute; reflexivity|].
  vm_compute. lia.
Defined.



End DoExamples.

(** ** The handler *)

Section ServeFacts.

Import viewproxy.
Context {lib : StdLib}.

(** Whenever the aggregate fetch returns an error, the handler logs it
    and then panics on [results[0]]. *)
Lemma ServeHTTP_fetch_error (s : Server)
    (transport : multiplexer.RoundTripper) (world : multiplexer.World)
    (w : ResponseWriter) (path : string) (route : viewproxy_route.Route)
    (parameters : gmap string string) (urls : list string)
    (results : slice multiplexer.Result) (err : multiplexer.error) :
  viewproxy_route.matchingRoute (routes s) path = Ret (Some (route, parameters)) ->
  request_urls s route parameters = Ret urls ->
  Fetch transport world urls (ProxyTimeout s)
  = multiplexer.Returned results (Some err) ->
  ServeHTTP s transport world w path
  = ([LogHandling path; LogErrored err],
     Panicked "index out of range [0] with length 0").
Proof.
  intros Hroute Hurls Hfetch. unfold ServeHTTP.
  rewrite Hroute, Hurls, Hfetch.
  apply Do_all_or_none in Hfetch as [_ Hempty]. by rewrite Hempty.
Qed.

End ServeFacts.

Section ServeExamples.

Import viewproxy.

(** C4. There is an execution of [ServeHTTP] in which the aggregate fetch
    returns an error and an empty result list (the layout answers 500),
    the handler logs the error and then indexes [results[0]], which
    panics. *)
Theorem ServeHTTP_reads_slot_zero_after_error :
  exists (s : Server) (transport : multiplexer.RoundTripper)
         (world : multiplexer.World) (w : ResponseWriter) (path : string)
         (urls : list string) (err : multiplexer.error),
    Fetch (lib := testlib.lib) transport world urls (ProxyTimeout s)
    = multiplexer.Returned (SliceOf []) (Some err) /\
    ServeHTTP (lib := testlib.lib) s transport world w path
    = ([LogHandling path; LogErrored err],
       Panicked "index out of range [0] with length 0").
Proof.
  exists testlib.hello_server, testlib.failing_upstream,
         (testlib.world [multiplexer.Finished 0]), testlib.blank_writer,
         "/hello/world",
         ["http://localhost:3000/layouts/main?name=world";
          "http://localhost:3000/header?name=world";
          "http://localhost:3000/body?name=world"].
  eexists. split; vm_compute; reflexivity.
Qed.

(** The same server against a healthy upstream: the layout's headers
    except the ignored one, the title of the fragment that sets it, the
    fragment bodies in order. *)
Example ServeHTTP_example :
  match ServeHTTP (lib := testlib.lib)
          (IgnoreHeader (lib := testlib.lib) testlib.hello_server "Content-Length")
          testlib.healthy_upstream
          (testlib.world [multiplexer.Finished 2; multiplexer.Finished 0;
                          multiplexer.Finished 1])
          testlib.blank_writer "/hello/world" with
  | (_, Responded w) =>
      (string_of (Written w), http.Get (WHeader w) "Content-Type",
       http.Get (WHeader w) "Content-Length")
  | _ => ("", "", "")
  end
  = ("<t>Hello</t><h1>hi</h1><p>world</p>", "text/html", "").
Proof. vm_compute. reflexivity. Qed.

End ServeExamples.

(** * Further properties of the code *)

(** ** Routes *)

Section RouteExtras.

Import viewproxy_route.

Lemma Split_nonempty (s : string) (sep : ascii) : go_strings.Split s sep <> [].
Proof.
  destruct s as [|c s]; cbn [go_strings.Split]; [done|].
  destruct (Ascii.eqb c sep); [done|]. by destruct (go_strings.Split s sep).
Qed.

Lemma Join_cons_char (c : ascii) (piece : string) (pieces : list string)
    (sep : ascii) :
  go_strings.Join (String c piece :: pieces) sep
  = String c (go_strings.Join (piece :: pieces) sep).
Proof. by destruct pieces. Qed.

Lemma Join_Split (s : string) (sep : ascii) :
  go_strings.Join (go_strings.Split s sep) sep = s.
Proof.
  induction s as [|c s IH]; [done|]. cbn [go_strings.Split].
  destruct (Ascii.eqb c sep) eqn:E.
  - apply Ascii.eqb_eq in E as ->.
    pose proof (Split_nonempty s sep) as Hne.
    destruct (go_strings.Split s sep) as [|piece pieces]; [done|].
    cbn [go_strings.Join]. by rewrite <- IH.
  - pose proof (Split_nonempty s sep) as Hne.
    destruct (go_strings.Split s sep) as [|piece pieces]; [done|].
    by rewrite Join_cons_char, IH.
Qed.

Lemma Split_no_sep (s : string) (sep : ascii) :
  Forall (fun piece => sep ∉ list_ascii_of_string piece) (go_strings.Split s sep).
Proof.
  induction s as [|c s IH]; cbn [go_strings.Split].
  - constructor; [|done]. cbn. apply not_elem_of_nil.
  - destruct (Ascii.eqb c sep) eqn:E.
    + constructor; [|done]. cbn. apply not_elem_of_nil.
    + apply Ascii.eqb_neq in E.
      destruct (go_strings.Split s sep) as [|piece pieces].
      * constructor; [|done]. cbn. intros H.
        apply elem_of_cons in H as [->|H]; [done|by apply not_elem_of_nil in H].
      * apply Forall_cons in IH as [Hp Hps]. constructor; [|done].
        cbn. intros H. apply elem_of_cons in H as [->|H]; done.
Qed.

(** A registered pattern is recovered from the parts of its route: joined
    by [/] they give the pattern back; there is at least one part and no
    part contains [/]. *)
Theorem newRoute_Parts_roundtrip (path : string) (layout : Fragment)
    (frags : list Fragment) :
  let r := newRoute path layout frags in
  go_strings.Join (Parts r) "/" = path /\
  Parts r <> [] /\
  Forall (fun part => "/"%char ∉ list_ascii_of_string part) (Parts r).
Proof.
  cbn. split; [apply Join_Split|]. split; [apply Split_nonempty|].
  apply Split_no_sep.
Qed.

Lemma Split_inj (s t : string) (sep : ascii) :
  go_strings.Split s sep = go_strings.Split t sep -> s = t.
Proof.
  intros H. by rewrite <- (Join_Split s sep), <- (Join_Split t sep), H.
Qed.

(** A route without parameter segments matches its own pattern and no
    other path. *)
Theorem literal_route_matches_only_its_pattern (pattern path : string)
    (layout : Fragment) (frags : list Fragment) :
  Forall (fun part => go_strings.HasPrefix part ":" = false)
         (go_strings.Split pattern "/") ->
  matchParts (newRoute pattern layout frags) (go_strings.Split path "/") = true
  <-> path = pattern.
Proof.
  intros Hlit. rewrite matchParts_spec. cbn [newRoute Parts]. split.
  - intros [Hlen Hall]. symmetry. apply (Split_inj _ _ "/").
    apply list_eq_same_length with (length (go_strings.Split pattern "/"));
      [done..|].
    intros i p s _ Hp Hs. apply (Hall i); [done..|].
    rewrite Forall_forall in Hlit. apply Hlit. by eapply list_elem_of_lookup_2.
  - intros ->. split; [done|]. intros i p s Hp Hs _. congruence.
Qed.

Lemma literal_route_matches_only_its_pattern_witness :
  matchParts (newRoute "/hello/world" (NewFragment "main") [])
             (go_strings.Split "/hello/world" "/") = true
  <-> "/hello/world" = "/hello/world".
Proof.
  apply (literal_route_matches_only_its_pattern "/hello/world" "/hello/world").
  vm_compute. repeat constructor.
Defined.

Lemma parametersFor_returns_on_match (r : Route) (parts : list string) :
  matchParts r parts = true -> exists ps, parametersFor r parts = Ret ps.
Proof.
  intros Hm. apply matchParts_spec in Hm as [Hlen _].
  by apply parametersFor_loop_returns.
Qed.

(** [matchingRoute] never panics; what it returns is a registered route
    that matches, with the parameters of that match, and it returns no
    route only when no registered route matches. *)
Theorem matchingRoute_sound (routes : list Route) (path : string) :
  let parts := go_strings.Split path "/" in
  exists found,
    matchingRoute routes path = Ret found /\
    match found with
    | Some (r, ps) =>
        r ∈ routes /\ matchParts r parts = true /\ parametersFor r parts = Ret ps
    | None => forall r, r ∈ routes -> matchParts r parts = false
    end.
Proof.
  intros parts. unfold matchingRoute. fold parts.
  induction routes as [|r routes IH]; cbn [matchingRoute_loop].
  - exists None. split; [done|]. intros r Hr. by apply not_elem_of_nil in Hr.
  - destruct (matchParts r parts) eqn:Hm.
    + destruct (parametersFor_returns_on_match _ _ Hm) as [ps Hps].
      exists (Some (r, ps)). rewrite Hps. split; [done|].
      split; [apply list_elem_of_here|done].
    + destruct IH as (found & Hfound & Hspec). exists found. split; [done|].
      destruct found as [[r' ps]|].
      * destruct Hspec as (? & ? & ?). split; [by apply list_elem_of_further|done].
      * intros r' Hr'. apply elem_of_cons in Hr' as [->|Hr']; [done|by apply Hspec].
Qed.

Lemma parametersFor_loop_keeps (parts pathParts : list string)
    (m m' : gmap string string) (name : string) :
  parametersFor_loop parts pathParts m = Ret m' ->
  is_Some (m !! name) -> is_Some (m' !! name).
Proof.
  revert pathParts m. induction parts as [|p parts IH]; intros pathParts m Hrun Hin;
    cbn [parametersFor_loop] in Hrun.
  - by injection Hrun as <-.
  - destruct (go_strings.HasPrefix p ":") eqn:P.
    + destruct (from1_of_parameter p P) as (n & Hn & ->). rewrite Hn in Hrun.
      cbn in Hrun. destruct pathParts as [|s pathParts]; [done|].
      apply (IH _ _ Hrun). destruct (decide (n = name)) as [->|Hne].
      * by rewrite lookup_insert_eq.
      * by rewrite lookup_insert_ne.
    + by apply (IH _ _ Hrun).
Qed.

Lemma parametersFor_loop_covers (parts pathParts : list string)
    (m m' : gmap string string) (name : string) :
  parametersFor_loop parts pathParts m = Ret m' ->
  String ":" name ∈ parts -> is_Some (m' !! name).
Proof.
  revert pathParts m. induction parts as [|p parts IH]; intros pathParts m Hrun Hin.
  - by apply not_elem_of_nil in Hin.
  - cbn [parametersFor_loop] in Hrun. apply elem_of_cons in Hin as [<-|Hin].
    + rewrite HasPrefix_colon in Hrun. cbn in Hrun.
      destruct pathParts as [|s pathParts]; [done|].
      apply (parametersFor_loop_keeps _ _ _ _ _ Hrun).
      by rewrite lookup_insert_eq.
    + destruct (go_strings.HasPrefix p ":") eqn:P.
      * destruct (from1_of_parameter p P) as (n & Hn & ->). rewrite Hn in Hrun.
        cbn in Hrun. destruct pathParts as [|s pathParts]; [done|].
        by apply (IH _ _ Hrun).
      * by apply (IH _ _ Hrun).
Qed.

(** The keys of the parameter map are exactly the names of the route's
    parameter segments. *)
Theorem parametersFor_keys (r : Route) (pathParts : list string)
    (ps : gmap string string) :
  parametersFor r pathParts = Ret ps ->
  forall name, is_Some (ps !! name) <-> String ":" name ∈ Parts r.
Proof.
  intros Hps name. split.
  - intros [v Hv].
    destruct (parametersFor_loop_sound _ _ _ _ _ _ Hps Hv) as [He|(i & Hi & _)].
    + by rewrite lookup_empty in He.
    + by eapply list_elem_of_lookup_2.
  - by apply (parametersFor_loop_covers _ _ _ _ _ Hps).
Qed.

Lemma parametersFor_keys_witness :
  is_Some (({["id" := "7"; "name" := "world"]} : gmap string string) !! "id")
  <-> String ":" "id" ∈ Parts (newRoute "/users/:id/:name" (NewFragment "main") []).
Proof.
  apply (parametersFor_keys
           (newRoute "/users/:id/:name" (NewFragment "main") [])
           (go_strings.Split "/users/7/world" "/")).
  vm_compute. reflexivity.
Defined.

End RouteExtras.

Section RegistrationExtras.

Import viewproxy_route.

Lemma matchingRoute_loop_app (routes1 routes2 : list Route)
    (parts : list string) :
  matchingRoute_loop (routes1 ++ routes2) parts
  = match matchingRoute_loop routes1 parts with
    | Ret None => matchingRoute_loop routes2 parts
    | found => found
    end.
Proof.
  induction routes1 as [|r routes1 IH]; cbn [app matchingRoute_loop]; [done|].
  destruct (matchParts r parts); [|done].
  by destruct (parametersFor r parts).
Qed.

(** Registration order is precedence: after [Server.Get] every path that
    resolved to a route still resolves to the same route with the same
    parameters, and a path that resolved to none is matched against the new
    route alone. *)
Theorem Get_keeps_earlier_matches (s : viewproxy.Server) (pattern : string)
    (layout : Fragment) (frags : list Fragment) (path : string) :
  matchingRoute (viewproxy.routes (viewproxy.Get s pattern layout frags)) path
  = match matchingRoute (viewproxy.routes s) path with
    | Ret None => matchingRoute [newRoute pattern layout frags] path
    | found => found
    end.
Proof. unfold matchingRoute. cbn [viewproxy.Get viewproxy.routes].
  apply matchingRoute_loop_app.
Qed.

Lemma parametersFor_loop_panics (parts pathParts : list string)
    (m : gmap string string) :
  (exists msg, parametersFor_loop parts pathParts m = Panic msg) <->
  (exists i p, parts !! i = Some p /\ go_strings.HasPrefix p ":" = true /\
               (length pathParts <= i)%nat).
Proof.
  revert pathParts m. induction parts as [|p parts IH]; intros pathParts m;
    cbn [parametersFor_loop].
  - split; [by intros [? ?]|]. by intros (i & q & Hi & _).
  - destruct (go_strings.HasPrefix p ":") eqn:P.
    + destruct (from1_of_parameter p P) as (n & Hn & ->). rewrite Hn. cbn.
      destruct pathParts as [|s pathParts].
      * split; [|by eexists]. intros _. exists 0%nat, (String ":" n).
        split; [done|]. split; [done|]. simpl. lia.
      * cbn [tail]. rewrite IH. split.
        -- intros (i & q & Hi & Hq & Hlen). exists (S i), q.
           split; [done|]. split; [done|]. simpl. lia.
        -- intros ([|i] & q & Hi & Hq & Hlen); simpl in Hlen; [lia|].
           exists i, q. split; [done|]. split; [done|]. lia.
    + cbn. rewrite IH. split.
      * intros (i & q & Hi & Hq & Hlen). exists (S i), q.
        split; [done|]. split; [done|].
        destruct pathParts; simpl in *; lia.
      * intros ([|i] & q & Hi & Hq & Hlen).
        -- simpl in Hi. injection Hi as <-. congruence.
        -- exists i, q. split; [done|]. split; [done|].
           destruct pathParts; simpl in *; lia.
Qed.

(** Called on its own, [parametersFor] panics exactly when the route has a
    parameter segment at a position the path parts do not reach; literal
    segments beyond the path are not read. *)
Theorem parametersFor_panics_iff (r : Route) (pathParts : list string) :
  (exists msg, parametersFor r pathParts = Panic msg) <->
  (exists i p, Parts r !! i = Some p /\ go_strings.HasPrefix p ":" = true /\
               (length pathParts <= i)%nat).
Proof. apply parametersFor_loop_panics. Qed.

Lemma FragmentsToRequest_loop_fills (frags : list Fragment) (i : nat)
    (filled : list (option Fragment)) :
  length filled = S i ->
  FragmentsToRequest_loop i frags (filled ++ replicate (length frags) None)
  = filled ++ (Some <$> frags).
Proof.
  revert i filled. induction frags as [|f frags IH]; intros i filled Hlen.
  - cbn. by rewrite app_nil_r.
  - cbn [FragmentsToRequest_loop length replicate].
    rewrite insert_app_r_alt by lia.
    replace (i + 1 - length filled)%nat with 0%nat by lia. cbn [insert list_insert].
    rewrite (cons_middle (Some f)), app_assoc.
    rewrite (IH (S i)) by (rewrite length_app; simpl; lia).
    by rewrite <- app_assoc.
Qed.

(** [FragmentsToRequest] returns the layout in slot zero followed by the
    fragments in their order, and leaves no slot nil. *)
Theorem FragmentsToRequest_slots (r : Route) :
  FragmentsToRequest r = Some <$> (Layout r :: fragments r).
Proof.
  unfold FragmentsToRequest. rewrite Nat.add_1_r. cbn [replicate insert list_insert].
  apply (FragmentsToRequest_loop_fills (fragments r) 0 [Some (Layout r)]).
  reflexivity.
Qed.

End RegistrationExtras.

(** ** One fetch *)

Section FetchExtras.

Import multiplexer.
Context {lib : StdLib}.

(** A result that [fetchUrl] returns is the result of the request made:
    its URL and duration are those of the call, its response is the one the
    transport gave, its status is that response's, and under strict mode
    the status lies in 200..299. *)
Theorem fetchUrl_result_is_consistent (r : Request) (duration : Z)
    (method url_ : string) (headers : http.Header) (result : Result) :
  fetchUrl r duration method url_ headers = Fetched result ->
  Url result = url_ /\
  Duration result = duration /\
  Transport r method url_ headers = inr (HttpResponse result) /\
  StatusCode result = http.RespStatusCode (HttpResponse result) /\
  read_body (HttpResponse result) = inr (Body result) /\
  (Non2xxErrors r = true -> 200 <= StatusCode result <= 299).
Proof.
  unfold fetchUrl, check_status.
  destruct (Transport r method url_ headers) as [|resp]; [done|].
  destruct (read_body resp) as [|responseBody] eqn:Hbody; [done|].
  cbn [StatusCode].
  destruct (Non2xxErrors r) eqn:Hstrict; cbn [andb].
  - destruct (_ || _) eqn:Hst; [done|]. intros [= <-]. cbn.
    repeat split; try done; apply orb_false_iff in Hst; lia.
  - intros [= <-]. cbn. repeat split; done.
Qed.

(** Every failure of [fetchUrl] is one of three: the error of the
    transport, handed on unchanged; an error of reading the body; or, under
    strict mode only, a [ResultError] around the complete result of a
    response whose status is outside 200..299. *)
Theorem fetchUrl_failure_cases (r : Request) (duration : Z)
    (method url_ : string) (headers : http.Header) (err : error) :
  fetchUrl r duration method url_ headers = Failed err ->
  Transport r method url_ headers = inl err
  \/ (exists resp msg,
        Transport r method url_ headers = inr resp /\
        read_body resp = inl msg /\ err = LibraryError msg)
  \/ (exists resp responseBody,
        Transport r method url_ headers = inr resp /\
        read_body resp = inr responseBody /\
        Non2xxErrors r = true /\
        (http.RespStatusCode resp < 200 \/ 299 < http.RespStatusCode resp) /\
        err = ResultError
                {| Url := url_; Duration := duration; HttpResponse := resp;
                   Body := responseBody;
                   StatusCode := http.RespStatusCode resp |}).
Proof.
  unfold fetchUrl, check_status.
  destruct (Transport r method url_ headers) as [e|resp]; [intros [= ->]; by left|].
  destruct (read_body resp) as [msg|responseBody] eqn:Hbody.
  - intros [= <-]. right. left. by exists resp, msg.
  - cbn [StatusCode]. destruct (Non2xxErrors r) eqn:Hstrict; cbn [andb]; [|done].
    destruct (_ || _) eqn:Hst; [|done]. intros [= <-]. right. right.
    exists resp, responseBody. repeat split; try done.
    apply orb_true_iff in Hst. lia.
Qed.

(** A gzip body is inflated before the status is looked at: when the
    stream inflates without error, the result carries the inflated bytes,
    whether the fetch succeeds or fails with a [ResultError]. *)
Theorem fetchUrl_gzip_decodes (r : Request) (duration : Z)
    (method url_ : string) (headers : http.Header) (resp : http.Response)
    (rd : gzipReader) (plain : list byte) :
  Transport r method url_ headers = inr resp ->
  http.Get (http.RespHeader resp) "Content-Encoding" = "gzip" ->
  gzip_NewReader (http.RawBody resp) = inr rd ->
  gzip_ReadAll rd = (plain, None) ->
  exists result,
    Body result = plain /\ HttpResponse result = resp /\
    (fetchUrl r duration method url_ headers = Fetched result \/
     fetchUrl r duration method url_ headers = Failed (ResultError result)).
Proof.
  intros Ht Hgz Hrd Hall. rewrite (fetchUrl_response _ _ _ _ _ _ Ht).
  rewrite (read_body_gzip resp rd plain) by done.
  unfold check_status. eexists. split; [|split]; [| |destruct (_ && _); eauto];
    done.
Qed.

End FetchExtras.

Section FetchExtrasExamples.

Import multiplexer.

Lemma fetchUrl_result_is_consistent_witness :
  let resp := testlib.ok_response [] "A" in
  let r := testlib.request (testlib.table_transport [("/a", resp)]) ["/a"] in
  let result := testlib.result "/a" "" "A" in
  Url result = "/a" /\
  Duration result = 0 /\
  Transport r "GET" "/a" ∅ = inr (HttpResponse result) /\
  StatusCode result = http.RespStatusCode (HttpResponse result) /\
  read_body (lib := testlib.lib) (HttpResponse result) = inr (Body result) /\
  (Non2xxErrors r = true -> 200 <= StatusCode result <= 299).
Proof.
  intros resp r result.
  apply (fetchUrl_result_is_consistent (lib := testlib.lib) r 0 "GET" "/a" ∅).
  vm_compute. reflexivity.
Defined.

Lemma fetchUrl_failure_cases_witness :
  let r := testlib.request (testlib.table_transport []) ["/a"] in
  let err := LibraryError "connection refused" in
  Transport r "GET" "/a" ∅ = inl err
  \/ (exists resp msg,
        Transport r "GET" "/a" ∅ = inr resp /\
        read_body (lib := testlib.lib) resp = inl msg /\ err = LibraryError msg)
  \/ (exists resp responseBody,
        Transport r "GET" "/a" ∅ = inr resp /\
        read_body (lib := testlib.lib) resp = inr responseBody /\
        Non2xxErrors r = true /\
        (http.RespStatusCode resp < 200 \/ 299 < http.RespStatusCode resp) /\
        err = ResultError
                {| Url := "/a"; Duration := 0; HttpResponse := resp;
                   Body := responseBody;
                   StatusCode := http.RespStatusCode resp |}).
Proof.
  intros r err.
  apply (fetchUrl_failure_cases (lib := testlib.lib) r 0 "GET" "/a" ∅ err).
  vm_compute. reflexivity.
Defined.

(** A compressed 404 page under strict mode: the error wraps the inflated
    page. *)
Lemma fetchUrl_gzip_decodes_witness :
  let resp :=
    {| http.RespStatusCode := 404;
       http.RespHeader := {["Content-Encoding" := ["gzip"]]};
       http.RawBody := testlib.compress (bytes_of "not here");
       http.BodyReadError := None |} in
  let r := testlib.request (testlib.table_transport [("/a", resp)]) ["/a"] in
  exists result,
    Body result = bytes_of "not here" /\ HttpResponse result = resp /\
    (fetchUrl (lib := testlib.lib) r 0 "GET" "/a" ∅ = Fetched result \/
     fetchUrl (lib := testlib.lib) r 0 "GET" "/a" ∅ = Failed (ResultError result)).
Proof.
  intros resp r.
  apply (fetchUrl_gzip_decodes (lib := testlib.lib) r 0 "GET" "/a" ∅ resp
           (byte_of_Z 8 :: bytes_of "not here")).
  - vm_compute. reflexivity.
  - vm_compute. reflexivity.
  - vm_compute. reflexivity.
  - vm_compute. reflexivity.
Defined.

End FetchExtrasExamples.

(** ** The aggregate fetch, further *)

Section DoExtras.

Import multiplexer.
Context {lib : StdLib}.

Lemma indexOfResult_from_cases (k : Z) (frags : list fragment)
    (result : Result) :
  (indexOfResult_from k frags result = -1 /\
   Forall (fun f => url f <> Url result) frags)
  \/ (exists i f,
        indexOfResult_from k frags result = k + Z.of_nat i /\
        frags !! i = Some f /\ url f = Url result /\
        forall j f', (j < i)%nat -> frags !! j = Some f' -> url f' <> Url result).
Proof.
  revert k. induction frags as [|f0 frags IH]; intros k; cbn [indexOfResult_from].
  - left. by split.
  - destruct (String.eqb (url f0) (Url result)) eqn:E.
    + apply String.eqb_eq in E. right. exists 0%nat, f0.
      split; [lia|]. split; [done|]. split; [done|]. intros j f' Hj. lia.
    + apply String.eqb_neq in E.
      destruct (IH (k + 1)) as [[Hm Hall]|(i & f & Hi & Hf & Hu & Hfirst)].
      * left. split; [done|]. by constructor.
      * right. exists (S i), f. split; [lia|]. split; [done|]. split; [done|].
        intros [|j] f' Hj Hf'; simpl in Hf'; [congruence|].
        apply (Hfirst j); [lia|done].
Qed.

(** [indexOfResult] returns [-1] exactly when no fragment has the URL of
    the result; otherwise it returns the position of the first fragment
    with that URL. *)
Theorem indexOfResult_first_or_minus_one (frags : list fragment)
    (result : Result) :
  (indexOfResult frags result = -1 <->
   Forall (fun f => url f <> Url result) frags) /\
  (forall i : nat,
     indexOfResult frags result = Z.of_nat i <->
     exists f, frags !! i = Some f /\ url f = Url result /\
               forall j f', (j < i)%nat -> frags !! j = Some f' ->
                            url f' <> Url result).
Proof.
  unfold indexOfResult.
  destruct (indexOfResult_from_cases 0 frags result)
    as [[Hm Hall]|(i0 & f0 & Hi0 & Hf0 & Hu0 & Hfirst0)].
  - split; [by rewrite Hm|]. intros i. rewrite Hm. split; [lia|].
    intros (f & Hf & Hu & _). rewrite Forall_forall in Hall.
    destruct (Hall f); [by eapply list_elem_of_lookup_2|done].
  - rewrite Hi0. split.
    + split; [lia|]. intros Hall. rewrite Forall_forall in Hall.
      destruct (Hall f0); [by eapply list_elem_of_lookup_2|done].
    + intros i. split.
      * intros Hi. assert (i = i0) as -> by lia. by exists f0.
      * intros (f & Hf & Hu & Hfirst).
        destruct (Nat.lt_trichotomy i i0) as [Hlt|[->|Hlt]]; [|lia|].
        -- by destruct (Hfirst0 i f Hlt Hf).
        -- by destruct (Hfirst i0 f0 Hlt Hf0).
Qed.




(** Fail fast, for every kind of error: the first completion that is not
    a success ends the call with its error, transport failure, unreadable
    body or [ResultError] alike, and with an empty result list. *)
Theorem Do_first_error_wins (r : Request) (w : World) (i : nat)
    (f : fragment) (err : error) (pre post : list event)
    (results : list Result) :
  0 < Timeout r ->
  fragments r !! i = Some f ->
  run_task r w i f = TaskErr err ->
  trace w = pre ++ Finished i :: post ->
  NoDup (trace w) ->
  arrivals r w pre = Some results ->
  Do r w = Returned (SliceOf []) (Some err).
Proof.
  intros Ht Hi Hrun Htrace Hnd Harr.
  assert (Hlen : (length pre < length (fragments r))%nat).
  { apply (completions_before r w pre results i); [done| |by eapply lookup_lt_Some].
    rewrite Htrace, cons_middle, app_assoc in Hnd.
    by apply NoDup_app in Hnd as [? _]. }
  rewrite (Do_live _ _ Ht (fragments_nonempty _ _ Hlen)), Htrace.
  rewrite (supervise_arrivals _ _ _ _ _ Harr) by lia.
  destruct (length (fragments r) - length pre)%nat eqn:E; [lia|].
  cbn [supervise]. by rewrite Hi, Hrun.
Qed.

Lemma run_task_panics (r : Request) (w : World) (i : nat) (f : fragment) :
  (exists msg, run_task r w i f = TaskPanic msg) <->
  HmacSecret r <> "" /\ url_Parse (url f) = None.
Proof.
  unfold run_task, task_headers.
  destruct (String.eqb (HmacSecret r) "") eqn:E; cbn [negb].
  - apply String.eqb_eq in E.
    destruct (fetchUrl r (elapsed w i) "GET" (url f) (Header r));
      (split; [by intros [? ?]|by intros [? _]]).
  - apply String.eqb_neq in E.
    unfold headersWithHmac, pathFromFullUrl.
    destruct (url_Parse (url f)) as [u|].
    + destruct (negb _); cbn;
        (destruct (fetchUrl _ _ _ _ _);
         (split; [by intros [? ?]|by intros [_ ?]])).
    + cbn. split; [done|]. intros _. by eexists.
Qed.

(** A fetch task panics exactly when an HMAC secret is set and the URL of
    its fragment does not parse; so [Do] never crashes for a request
    without secret, nor for one whose fragment URLs all parse. *)
Theorem Do_crashes_only_on_unparsable_signed_url (r : Request) (w : World) :
  (forall i f,
     (exists msg, run_task r w i f = TaskPanic msg) <->
     HmacSecret r <> "" /\ url_Parse (url f) = None) /\
  (HmacSecret r = "" \/
   (forall f, f ∈ fragments r -> is_Some (url_Parse (url f))) ->
   forall msg, Do r w <> Crashed msg).
Proof.
  split; [intros i f; apply run_task_panics|].
  intros Hsafe msg.
  assert (Hok : forall i f msg', fragments r !! i = Some f ->
                                 run_task r w i f <> TaskPanic msg').
  { intros i f msg' Hf Hp.
    destruct (proj1 (run_task_panics r w i f)) as [Hsecret Hparse]; [by eexists|].
    destruct Hsafe as [Hs|Hall]; [done|].
    destruct (Hall f) as [u Hu]; [by eapply list_elem_of_lookup_2|congruence]. }
  assert (Hcollect : forall ch, collect r ch <> Crashed msg).
  { intros ch. unfold collect. by destruct (_ <? _)%nat. }
  assert (Hsup : forall events wg ch, supervise r w wg ch events <> Crashed msg).
  { induction events as [|e events IH]; intros wg ch.
    - destruct wg; [apply Hcollect|done].
    - destruct wg as [|wg]; [apply Hcollect|]. cbn [supervise].
      destruct e as [i| |]; [|done..].
      destruct (fragments r !! i) as [f|] eqn:Hf; [|apply IH].
      destruct (run_task r w i f) eqn:Hrun; [apply IH|done|].
      by destruct (Hok i f msg0 Hf). }
  destruct (Do_cases r w)
    as [[_ ->]|[[_ ->]|[(_ & _ & ? & _ & ->)|(_ & _ & ? & _ & ->)]]];
    [|apply Hsup|done..].
  destruct (_ && _); [apply Hcollect|done].
Qed.


End DoExtras.

Section DoExtrasExamples.

Import multiplexer.



(** The second of three upstreams refuses the connection. *)
Lemma Do_first_error_wins_witness :
  let transport :=
    testlib.table_transport
      [("/a", testlib.ok_response [] "A"); ("/c", testlib.ok_response [] "C")] in
  let r := testlib.request transport ["/a"; "/b"; "/c"] in
  let w := testlib.world [Finished 0; Finished 1; Finished 2] in
  Do (lib := testlib.lib) r w
  = Returned (SliceOf []) (Some (LibraryError "connection refused")).
Proof.
  intros transport r w.
  apply (Do_first_error_wins (lib := testlib.lib) r w 1 (mkfragment "/b" ∅)
           (LibraryError "connection refused") [Finished 0] [Finished 2]
           [testlib.result "/a" "" "A"]).
  - reflexivity.
  - vm_compute. reflexivity.
  - vm_compute. reflexivity.
  - reflexivity.
  - apply (bool_decide_unpack _). vm_compute. reflexivity.
  - vm_compute. reflexivity.
Defined.


(** A secret and a fragment URL that holds a control character. *)
Example Do_crash_example :
  Do (lib := testlib.lib)
     (testlib.signed_request "S" (testlib.table_transport [])
        [String "127"%char "/a"])
     (testlib.world [Finished 0])
  = Crashed "nil pointer dereference".
Proof. vm_compute. reflexivity. Qed.

End DoExtrasExamples.

(** ** Headers, URLs and assembly in the handler *)

Section HandlerExtras.

Import viewproxy.
Context {lib : StdLib}.

Lemma fold_Add_lookup (values : list string) (acc : http.Header)
    (name name' : string) :
  fold_left (fun acc value => http.Add acc name value) values acc !! name'
  = if decide (name' = name)
    then match values with
         | [] => acc !! name
         | _ :: _ => Some (default [] (acc !! name) ++ values)
         end
    else acc !! name'.
Proof.
  destruct (decide (name' = name)) as [->|Hne].
  - revert acc. induction values as [|v values IH]; intros acc; cbn [fold_left];
      [done|].
    rewrite IH. unfold http.Add. rewrite lookup_insert_eq.
    destruct values; [done|]. cbv [default from_option id].
    by rewrite <- app_assoc.
  - revert acc. induction values as [|v values IH]; intros acc; cbn [fold_left];
      [done|].
    rewrite IH. unfold http.Add. by rewrite lookup_insert_ne.
Qed.

Lemma copy_headers_lookup (s : Server) (from to : http.Header) (name : string) :
  copy_headers s from to !! name
  = if bool_decide (ToLower name ∈ ignoreHeaders s) then to !! name
    else match from !! name with
         | Some (v :: vs) => Some (default [] (to !! name) ++ v :: vs)
         | _ => to !! name
         end.
Proof.
  unfold copy_headers. revert name.
  apply (map_fold_weak_ind (fun acc (m : http.Header) => forall name,
    acc !! name
    = if bool_decide (ToLower name ∈ ignoreHeaders s) then to !! name
      else match m !! name with
           | Some (v :: vs) => Some (default [] (to !! name) ++ v :: vs)
           | _ => to !! name
           end)).
  - intros name. rewrite lookup_empty. by destruct (bool_decide _).
  - intros i x m acc Hi IH name.
    assert (Hacc : acc !! i = to !! i).
    { rewrite IH, Hi. by destruct (bool_decide _). }
    destruct (decide (name = i)) as [->|Hne].
    + rewrite lookup_insert_eq.
      destruct (bool_decide (ToLower i ∈ ignoreHeaders s)); [done|].
      rewrite fold_Add_lookup. rewrite decide_True by done.
      rewrite Hacc. by destruct x.
    + rewrite lookup_insert_ne by done. rewrite <- IH.
      destruct (bool_decide (ToLower i ∈ ignoreHeaders s)); [done|].
      rewrite fold_Add_lookup. by rewrite decide_False.
Qed.

(** On a fresh response the header loop of [ServeHTTP] forwards every
    header of the layout response with all its values, except those whose
    lower-cased name is in the ignore set, and adds nothing else. *)
Theorem copy_headers_forwards_unless_ignored (s : Server)
    (from : http.Header) (name : string) :
  copy_headers s from ∅ !! name
  = match from !! name with
    | Some (v :: vs) =>
        if bool_decide (ToLower name ∈ ignoreHeaders s) then None
        else Some (v :: vs)
    | _ => None
    end.
Proof.
  rewrite copy_headers_lookup, lookup_empty.
  destruct (bool_decide _); [by destruct (from !! name) as [[|]|]|].
  by destruct (from !! name) as [[|]|].
Qed.

(** [IgnoreHeader] is insensitive to case as [strings.ToLower] folds it:
    after it, a header whose name has the same lower-case form as the
    ignored one is never copied, and the treatment of every other header
    is as before. *)
Theorem IgnoreHeader_is_case_insensitive (s : Server) (ignored : string)
    (from to : http.Header) (name : string) :
  (ToLower name = ToLower ignored ->
   copy_headers (IgnoreHeader s ignored) from to !! name = to !! name) /\
  (ToLower name <> ToLower ignored ->
   copy_headers (IgnoreHeader s ignored) from to !! name
   = copy_headers s from to !! name).
Proof.
  rewrite !copy_headers_lookup. cbn [IgnoreHeader ignoreHeaders]. split.
  - intros Heq. rewrite bool_decide_eq_true_2; [done|].
    apply elem_of_union. left. by apply elem_of_singleton.
  - intros Hne.
    destruct (bool_decide (ToLower name ∈ ignoreHeaders s)) eqn:E.
    + apply bool_decide_eq_true in E. rewrite bool_decide_eq_true_2; [done|].
      apply elem_of_union. by right.
    + apply bool_decide_eq_false in E. rewrite bool_decide_eq_false_2; [done|].
      intros [Hin|Hin]%elem_of_union; [|done]. by apply elem_of_singleton in Hin.
Qed.

Lemma matchingRoute_loop_none_inv (routes : list viewproxy_route.Route)
    (parts : list string) :
  viewproxy_route.matchingRoute_loop routes parts = Ret None ->
  forall r, r ∈ routes -> viewproxy_route.matchParts r parts = false.
Proof.
  induction routes as [|r0 routes IH]; intros Hloop r Hr.
  - by apply not_elem_of_nil in Hr.
  - cbn [viewproxy_route.matchingRoute_loop] in Hloop.
    destruct (viewproxy_route.matchParts r0 parts) eqn:Hm.
    + by destruct (viewproxy_route.parametersFor r0 parts).
    + apply elem_of_cons in Hr as [->|Hr]; [done|by apply IH].
Qed.

(** The handler gives the 404 answer exactly when no registered route
    matches the path. The answer is the body "404 not found" written
    without a call of [WriteHeader], so with status 200 unless one was set
    before, and one log line; it is the same for every transport and
    every schedule. When some route matches, the handler never gives
    it. *)
Theorem ServeHTTP_not_found (s : Server)
    (transport : multiplexer.RoundTripper) (world : multiplexer.World)
    (w : ResponseWriter) (path : string) :
  (forall r, r ∈ routes s ->
             viewproxy_route.matchParts r (go_strings.Split path "/") = false)
  <->
  ServeHTTP s transport world w path
  = ([LogRendering404 path],
     Responded {| WHeader := WHeader w;
                  WStatus := Some (default 200 (WStatus w));
                  Written := Written w ++ bytes_of "404 not found" |}).
Proof.
  unfold ServeHTTP, viewproxy_route.matchingRoute. split.
  - intros Hnone. by rewrite (matchingRoute_loop_none _ _ Hnone).
  - destruct (viewproxy_route.matchingRoute_loop (routes s)
                (go_strings.Split path "/")) as [[[route parameters]|]|msg] eqn:Hloop.
    + destruct (request_urls s route parameters) as [urls|msg]; [|done].
      destruct (Fetch transport world urls (ProxyTimeout s))
        as [results err| |msg]; [|done..].
      by destruct (after_fetch s w (elems_of results) err).
    + intros _. by apply matchingRoute_loop_none_inv.
    + done.
Qed.

Lemma query_of_singletons (parameters : gmap string string) :
  query_of parameters = (fun v => [v]) <$> parameters.
Proof.
  unfold query_of.
  apply (map_fold_weak_ind
           (fun acc (m : gmap string string) => acc = (fun v => [v]) <$> m)).
  - by rewrite fmap_empty.
  - intros name value m acc Hname ->. unfold http.Add.
    by rewrite lookup_fmap, Hname, fmap_insert.
Qed.

Lemma mapM_go_Ret {A B} (f : A -> go B) (l : list A) (ys : list B) :
  mapM_go f l = Ret ys <-> Forall2 (fun x y => f x = Ret y) l ys.
Proof.
  revert ys. induction l as [|x l IH]; intros ys; cbn [mapM_go].
  - split; [by intros [= <-]; constructor|]. by intros ->%Forall2_nil_inv_l.
  - split.
    + destruct (f x) as [y|] eqn:Hx; [|done]. cbn.
      destruct (mapM_go f l) as [ys'|] eqn:Hl; [|done]. cbn.
      intros [= <-]. constructor; [done|]. by apply IH.
    + intros (y & ys' & Hy & Hys & ->)%Forall2_cons_inv_l.
      rewrite Hy. cbn. apply IH in Hys. by rewrite Hys.
Qed.

(** The fetch list of [ServeHTTP]: when the target and each
    target-with-fragment parse, it holds the layout URL, whose path is the
    target's followed by [/layouts/] and the layout name, and then one URL
    per fragment in order; each carries as query the encoding of the route
    parameters, one value per name, whatever query the target had. *)
Theorem request_urls_shape (s : Server) (route : viewproxy_route.Route)
    (parameters : gmap string string) (target : net_url.URL) :
  url_Parse (Target s) = Some target ->
  (forall f, f ∈ viewproxy_route.fragments route ->
             is_Some (url_Parse (Target s +:+ "/" +:+ viewproxy_route.Path f))) ->
  let query := Values_Encode ((fun v => [v]) <$> parameters) in
  exists urls,
    request_urls s route parameters = Ret urls /\
    length urls = S (length (viewproxy_route.fragments route)) /\
    urls !! 0%nat
    = Some (url_String
              {| net_url.Prefix := net_url.Prefix target;
                 net_url.Path :=
                   net_url.Path target +:+ "/layouts/"
                   +:+ viewproxy_route.Path (viewproxy_route.Layout route);
                 net_url.RawQuery := query |}) /\
    forall i f u,
      viewproxy_route.fragments route !! i = Some f ->
      url_Parse (Target s +:+ "/" +:+ viewproxy_route.Path f) = Some u ->
      urls !! S i
      = Some (url_String
                {| net_url.Prefix := net_url.Prefix u;
                   net_url.Path := net_url.Path u;
                   net_url.RawQuery := query |}).
Proof.
  intros Htarget Hfrags query.
  set (fragmentUrl := fun f : viewproxy_route.Fragment =>
         match url_Parse (Target s +:+ "/" +:+ viewproxy_route.Path f) with
         | Some u => url_String
                       {| net_url.Prefix := net_url.Prefix u;
                          net_url.Path := net_url.Path u;
                          net_url.RawQuery := query |}
         | None => ""
         end).
  assert (Hmap : mapM_go (fun f => constructFragmentUrl s (viewproxy_route.Path f)
                                                        parameters)
                         (viewproxy_route.fragments route)
                 = Ret (fragmentUrl <$> viewproxy_route.fragments route)).
  { apply mapM_go_Ret. apply Forall2_fmap_r, Forall_Forall2_diag.
    apply Forall_forall. intros f Hf. destruct (Hfrags f Hf) as [u Hu].
    unfold constructFragmentUrl, fragmentUrl, compose.
    by rewrite Hu, query_of_singletons. }
  eexists. split; [|split; [|split]].
  - unfold request_urls, constructLayoutUrl.
    rewrite Htarget, query_of_singletons. cbn. rewrite Hmap. reflexivity.
  - cbn. by rewrite length_fmap.
  - reflexivity.
  - intros i f u Hf Hu. rewrite lookup_cons. cbn beta iota.
    rewrite list_lookup_fmap, Hf. cbn.
    unfold fragmentUrl. by rewrite Hu.
Qed.

End HandlerExtras.

Section AssemblyExtras.

Import viewproxy.
Context {lib : StdLib}.

Lemma pageTitle_agree (s : Server) (rest : list multiplexer.Result) :
  snd (ServeHTTP_loop s rest) = SetFragments_pageTitle s rest.
Proof.
  unfold ServeHTTP_loop, SetFragments_pageTitle, SetFragments_loop.
  rewrite !fold_fragment_step_title.
  destruct (last (filter (fun r => title_of r <> "") rest)) as [r|] eqn:E;
    [|done].
  apply last_Some_elem_of, list_elem_of_filter in E as [Hr _].
  apply String.eqb_neq in Hr. by rewrite Hr.
Qed.

Lemma Replace1_nil (old new : list byte) :
  old <> [] -> go_bytes.Replace1 [] old new = [].
Proof. by destruct old. Qed.

(** The assembly written out in [ServeHTTP] and the one done through the
    response builder write the same bytes whenever the layout body is not
    empty. With an empty layout body they part: [ServeHTTP] writes nothing,
    the builder writes the concatenated fragment bodies. *)
Theorem inline_assembly_agrees_with_builder (s : Server) (w : ResponseWriter)
    (layout : multiplexer.Result) (rest : list multiplexer.Result) :
  let rb := SetFragments (SetLayout (newResponseBuilder s w) layout) rest in
  exists log w',
    after_fetch s w (layout :: rest) None = (log, Responded w') /\
    (multiplexer.Body layout <> [] -> Written w' = Written (Write rb)) /\
    (multiplexer.Body layout = [] ->
     Written w' = Written w /\
     Written (Write rb) = Written w ++ concat (multiplexer.Body <$> rest)).
Proof.
  intros rb. unfold after_fetch.
  pose proof (pageTitle_agree s rest) as Htitle.
  pose proof (fold_fragment_step_content rest [] (DefaultPageTitle s)) as Hcontent.
  fold (ServeHTTP_loop s rest) in Hcontent.
  destruct (ServeHTTP_loop s rest) as [contentHtml pageTitle].
  cbn [fst snd app] in Htitle, Hcontent. subst contentHtml pageTitle.
  eexists _, _. split; [reflexivity|]. cbn [Written].
  subst rb. unfold Write, SetFragments, SetLayout, newResponseBuilder.
  cbn [Written writer body server]. rewrite SetFragments_loop_content. split.
  - intros Hne. destruct (multiplexer.Body layout); [done|]. reflexivity.
  - intros ->. cbn [length Nat.eqb]. split; [|done].
    rewrite !Replace1_nil by discriminate. by rewrite app_nil_r.
Qed.

Lemma absent_by_scan (old s : list byte) :
  forallb (fun i => negb (go_bytes.HasPrefix (drop i s) old))
          (seq 0 (S (length s))) = true ->
  go_bytes.absent old s.
Proof.
  intros Hscan i Hocc.
  apply (no_occurrence_before old s (S (length s)) Hscan i); [|done].
  apply occurs_at_bound in Hocc. lia.
Qed.

(** A layout body that is not empty and holds no content token loses the
    fragments: [SetFragments] leaves the layout with only the title
    substituted, and unchanged when the title token is missing too. *)
Theorem SetFragments_without_content_token (rb : responseBuilder)
    (results : list multiplexer.Result) :
  body rb <> [] ->
  go_bytes.absent CONTENT_TOKEN (body rb) ->
  body (SetFragments rb results)
  = go_bytes.Replace1 (body rb) TITLE_TOKEN
      (bytes_of (SetFragments_pageTitle (server rb) results)) /\
  (go_bytes.absent TITLE_TOKEN (body rb) ->
   body (SetFragments rb results) = body rb).
Proof.
  intros Hne Habs.
  assert (Hbody : body (SetFragments rb results)
                  = go_bytes.Replace1 (body rb) TITLE_TOKEN
                      (bytes_of (SetFragments_pageTitle (server rb) results))).
  { unfold SetFragments. cbn [body].
    destruct (body rb) as [|c l] eqn:E; [done|]. cbn [length Nat.eqb].
    by rewrite (Replace1_absent (c :: l) CONTENT_TOKEN). }
  split; [done|]. intros Habs'. by rewrite Hbody, Replace1_absent.
Qed.

Lemma SetFragments_without_content_token_witness :
  let rb := testlib.builder "Home" "<html>{{{VIEW_PROXY_PAGE_TITLE}}}</html>" in
  let results := [testlib.result "/a" "" "A"] in
  body (SetFragments rb results)
  = go_bytes.Replace1 (body rb) TITLE_TOKEN
      (bytes_of (SetFragments_pageTitle (server rb) results)) /\
  (go_bytes.absent TITLE_TOKEN (body rb) ->
   body (SetFragments rb results) = body rb).
Proof.
  intros rb results. apply (SetFragments_without_content_token rb results).
  - discriminate.
  - apply absent_by_scan. vm_compute. reflexivity.
Defined.

Example SetFragments_without_content_token_example :
  string_of (body (SetFragments
                     (testlib.builder "Home"
                        "<html>{{{VIEW_PROXY_PAGE_TITLE}}}</html>")
                     [testlib.result "/a" "" "A"]))
  = "<html>Home</html>".
Proof. vm_compute. reflexivity. Qed.

End AssemblyExtras.

Section HandlerExtrasExamples.

Import viewproxy.

Lemma ServeHTTP_not_found_witness :
  ServeHTTP (lib := testlib.lib) testlib.hello_server testlib.healthy_upstream
            (testlib.world []) testlib.blank_writer "/hello"
  = ([LogRendering404 "/hello"],
     Responded {| WHeader := WHeader testlib.blank_writer;
                  WStatus := Some (default 200 (WStatus testlib.blank_writer));
                  Written := Written testlib.blank_writer
                             ++ bytes_of "404 not found" |}).
Proof.
  apply (ServeHTTP_not_found (lib := testlib.lib)).
  intros r Hr. cbn in Hr. apply list_elem_of_singleton in Hr as ->.
  vm_compute. reflexivity.
Defined.

Lemma request_urls_shape_witness :
  let s := testlib.hello_server in
  let route := viewproxy_route.newRoute "/hello/:name"
                 (viewproxy_route.NewFragment "main")
                 [viewproxy_route.NewFragment "header";
                  viewproxy_route.NewFragment "body"] in
  let parameters : gmap string string := {["name" := "world"]} in
  let target := {| net_url.Prefix := "http://localhost:3000";
                   net_url.Path := ""; net_url.RawQuery := "" |} in
  let query :=
    Values_Encode (StdLib := testlib.lib) ((fun v => [v]) <$> parameters) in
  exists urls,
    request_urls (lib := testlib.lib) s route parameters = Ret urls /\
    length urls = S (length (viewproxy_route.fragments route)) /\
    urls !! 0%nat
    = Some (url_String (StdLib := testlib.lib)
              {| net_url.Prefix := net_url.Prefix target;
                 net_url.Path :=
                   net_url.Path target +:+ "/layouts/"
                   +:+ viewproxy_route.Path (viewproxy_route.Layout route);
                 net_url.RawQuery := query |}) /\
    forall i f u,
      viewproxy_route.fragments route !! i = Some f ->
      url_Parse (StdLib := testlib.lib)
                (Target s +:+ "/" +:+ viewproxy_route.Path f) = Some u ->
      urls !! S i
      = Some (url_String (StdLib := testlib.lib)
                {| net_url.Prefix := net_url.Prefix u;
                   net_url.Path := net_url.Path u;
                   net_url.RawQuery := query |}).
Proof.
  intros s route parameters target query.
  apply (request_urls_shape (lib := testlib.lib) s route parameters target).
  - vm_compute. reflexivity.
  - intros f Hf. cbn in Hf.
    apply elem_of_cons in Hf as [->|Hf];
      [|apply list_elem_of_singleton in Hf as ->];
      eexists; vm_compute; reflexivity.
Defined.

Example request_urls_example :
  request_urls (lib := testlib.lib) testlib.hello_server
    (viewproxy_route.newRoute "/hello/:name"
       (viewproxy_route.NewFragment "main")
       [viewproxy_route.NewFragment "header"; viewproxy_route.NewFragment "body"])
    {["name" := "world"]}
  = Ret ["http://localhost:3000/layouts/main?name=world";
         "http://localhost:3000/header?name=world";
         "http://localhost:3000/body?name=world"].
Proof. vm_compute. reflexivity. Qed.

End HandlerExtrasExamples.

Section ServeExtras.

Import viewproxy.
Context {lib : StdLib}.




End ServeExtras.

Section ServeExtrasExamples.

Import viewproxy.


End ServeExtrasExamples.

(** ** The streaming handler of package server *)

Section StreamingExtras.

Import server.

Variables (get : string -> option (list byte)) (durations : nat -> Z).
Variables (urls : list string) (bodies : list (list byte)).
Hypothesis fetched : Forall2 (fun fragmentUrl content => get fragmentUrl = Some content)
                             urls bodies.

Local Abbreviation n := (length urls).
Local Abbreviation fetch_log := (server.fetch_log durations urls).

Lemma fetch_log_cons (i : nat) (events : list nat) :
  fetch_log (i :: events)
  = match urls !! i with
    | Some fragmentUrl => LogFetched fragmentUrl (durations i) :: fetch_log events
    | None => fetch_log events
    end.
Proof. unfold server.fetch_log. simpl. by destruct (urls !! i). Qed.

Lemma write_Written (w : viewproxy.ResponseWriter) (content : list byte) :
  viewproxy.Written (write w content) = viewproxy.Written w ++ content.
Proof. reflexivity. Qed.

Lemma receive_in_order (written0 : list byte) (sent : gmap nat (list byte))
    (m k : nat) (w : viewproxy.ResponseWriter) :
  (forall i content, sent !! i = Some content -> bodies !! i = Some content) ->
  (k + m = n)%nat ->
  viewproxy.Written w = written0 ++ concat (take k bodies) ->
  exists k' w',
    receive (seq k m) sent w = (seq k' (n - k'), w') /\
    (k <= k' <= n)%nat /\
    viewproxy.Written w' = written0 ++ concat (take k' bodies) /\
    viewproxy.WHeader w' = viewproxy.WHeader w /\
    (forall j, (k <= j < k')%nat -> is_Some (sent !! j)) /\
    ((k' < n)%nat -> sent !! k' = None).
Proof.
  intros Hsent. revert k w. induction m as [|m IH]; intros k w Hk Hw.
  - exists k, w. replace (n - k)%nat with 0%nat by lia.
    repeat split; try done; lia.
  - cbn [seq receive]. destruct (sent !! k) as [content|] eqn:Hc.
    + destruct (IH (S k) (write w content)) as (k' & w' & Hr & Hk' & Hw' & Hh & Hall & Hnone).
      { lia. }
      { rewrite write_Written, Hw, (take_S_r _ _ content) by by apply Hsent.
        by rewrite concat_app, <- app_assoc; cbn; rewrite app_nil_r. }
      exists k', w'. split; [done|]. split; [lia|]. split; [done|]. split; [done|].
      split; [|done]. intros j Hj. destruct (decide (j = k)) as [->|]; [by eexists|].
      apply Hall. lia.
    + exists k, w. replace (n - k)%nat with (S m) by lia.
      repeat split; try done; lia.
Qed.

Lemma run_in_order (written0 : list byte) (header0 : http.Header)
    (events : list nat) :
  forall (k : nat) (sent : gmap nat (list byte)) (w : viewproxy.ResponseWriter)
         (log : list log_entry),
    (forall i content, sent !! i = Some content -> bodies !! i = Some content) ->
    (k <= n)%nat ->
    viewproxy.Written w = written0 ++ concat (take k bodies) ->
    viewproxy.WHeader w = header0 ->
    ((k < n)%nat -> sent !! k = None) ->
    (forall j, (j < k)%nat -> is_Some (sent !! j)) ->
    exists k' w',
      run get durations urls events (seq k (n - k)) sent w log
      = (log ++ fetch_log events, standing (seq k' (n - k')) w') /\
      (k' <= n)%nat /\
      viewproxy.Written w' = written0 ++ concat (take k' bodies) /\
      viewproxy.WHeader w' = header0 /\
      ((k' < n)%nat -> (k' ∉ events) /\ sent !! k' = None) /\
      (forall j, (j < k')%nat -> j ∈ events \/ is_Some (sent !! j)).
Proof.
  induction events as [|i events IH]; intros k sent w log Hsent Hk Hw Hh Hnone Hall.
  - exists k, w. cbn [run fetch_log omap]. rewrite app_nil_r.
    repeat split; try done.
    + apply not_elem_of_nil.
    + by apply Hnone.
    + intros j Hj. right. by apply Hall.
  - cbn [run]. rewrite fetch_log_cons.
    destruct (urls !! i) as [fragmentUrl|] eqn:Hurl.
    + destruct (Forall2_lookup_l _ _ _ _ _ fetched Hurl) as (content & Hbody & Hget).
      rewrite Hget.
      assert (Hsent' : forall j c, <[i := content]> sent !! j = Some c ->
                                   bodies !! j = Some c).
      { intros j c. destruct (decide (i = j)) as [->|Hne].
        - rewrite lookup_insert_eq. by intros [= <-].
        - rewrite lookup_insert_ne by done. apply Hsent. }
      destruct (receive_in_order written0 (<[i := content]> sent) (n - k) k w)
        as (k1 & w1 & Hr & Hk1 & Hw1 & Hh1 & Hall1 & Hnone1); [done|lia|done|].
      rewrite Hr.
      destruct (IH k1 (<[i := content]> sent) w1
                   (log ++ [LogFetched fragmentUrl (durations i)]))
        as (k' & w' & Hrun & Hk' & Hw' & Hh' & Hnone' & Hall'); try done.
      { lia. }
      { congruence. }
      { intros j Hj. destruct (decide (j < k)%nat).
        - destruct (decide (i = j)) as [->|Hne].
          + rewrite lookup_insert_eq. by eexists.
          + rewrite lookup_insert_ne by done. by apply Hall.
        - apply Hall1. lia. }
      exists k', w'. rewrite Hrun, <- app_assoc. cbn [app]. split; [done|].
      split; [done|]. split; [done|]. split; [done|]. split.
      * intros Hlt. destruct (Hnone' Hlt) as [Hnot Hins].
        destruct (decide (i = k')) as [->|Hne].
        { by rewrite lookup_insert_eq in Hins. }
        rewrite lookup_insert_ne in Hins by done. split; [|done].
        intros [->|Hin]%elem_of_cons; done.
      * intros j Hj. destruct (Hall' j Hj) as [Hin|Hin].
        { left. by apply list_elem_of_further. }
        destruct (decide (i = j)) as [->|Hne]; [left; apply list_elem_of_here|].
        rewrite lookup_insert_ne in Hin by done. by right.
    + destruct (IH k sent w log) as (k' & w' & Hrun & Hk' & Hw' & Hh' & Hnone' & Hall');
        try done.
      exists k', w'. split; [done|]. split; [done|]. split; [done|].
      split; [done|]. split.
      * intros Hlt. destruct (Hnone' Hlt) as [Hnot Hins]. split; [|done].
        intros [->|Hin]%elem_of_cons; [|done].
        apply lookup_ge_None in Hurl. lia.
      * intros j Hj. destruct (Hall' j Hj) as [Hin|Hin]; [|by right].
        left. by apply list_elem_of_further.
Qed.

End StreamingExtras.

Section StreamingHandler.

Import server.
Context {lib : StdLib}.

Lemma fragment_query_lookup (fragment : string)
    (parameters : gmap string string) (name : string) :
  fragment_query fragment parameters !! name
  = if decide (name = "fragment")
    then Some (match parameters !! "fragment" with
               | Some value => [value; fragment]
               | None => [fragment]
               end)
    else (fun v => [v]) <$> parameters !! name.
Proof.
  unfold fragment_query, http.Add. rewrite query_of_singletons.
  destruct (decide (name = "fragment")) as [->|Hne].
  - rewrite lookup_insert_eq, lookup_fmap.
    by destruct (parameters !! "fragment").
  - by rewrite lookup_insert_ne, lookup_fmap.
Qed.

(** The URL fetched for a fragment is the target with its query replaced:
    every route parameter once under its name, and the fragment name as
    the last value under [fragment], after the value of a route parameter
    that happens to be called [fragment]. A target that does not parse
    panics. *)
Theorem constructFragmentUrl_query (s : Server) (fragment : string)
    (parameters : gmap string string) :
  match url_Parse (Target s) with
  | Some target =>
      exists query,
        constructFragmentUrl s fragment parameters
        = Ret (url_String {| net_url.Prefix := net_url.Prefix target;
                             net_url.Path := net_url.Path target;
                             net_url.RawQuery := Values_Encode query |}) /\
        query !! "fragment"
        = Some (match parameters !! "fragment" with
                | Some value => [value; fragment]
                | None => [fragment]
                end) /\
        forall name, name <> "fragment" ->
                     query !! name = (fun v => [v]) <$> parameters !! name
  | None => exists msg, constructFragmentUrl s fragment parameters = Panic msg
  end.
Proof.
  unfold constructFragmentUrl. destruct (url_Parse (Target s)) as [target|].
  - eexists. split; [reflexivity|]. split.
    + by rewrite fragment_query_lookup.
    + intros name Hne. rewrite fragment_query_lookup. by rewrite decide_False.
  - by eexists.
Qed.

(** The fetch URLs of a route, for a target that parsed as [target]. *)
Lemma streaming_urls (s : Server) (route : viewproxy_route.Route)
    (parameters : gmap string string) (target : net_url.URL) :
  url_Parse (Target s) = Some target ->
  viewproxy.mapM_go
    (fun f => constructFragmentUrl s (viewproxy_route.Path f) parameters)
    (viewproxy_route.fragments route)
  = Ret ((fun f => url_String
                     {| net_url.Prefix := net_url.Prefix target;
                        net_url.Path := net_url.Path target;
                        net_url.RawQuery :=
                          Values_Encode
                            (fragment_query (viewproxy_route.Path f) parameters) |})
           <$> viewproxy_route.fragments route).
Proof.
  intros Htarget. apply mapM_go_Ret. apply Forall2_fmap_r, Forall_Forall2_diag.
  apply Forall_forall. intros f _. unfold constructFragmentUrl, compose.
  by rewrite Htarget.
Qed.

(** At any moment the handler has written the bodies of the longest run
    of fragments, from the first on, whose fetches have completed: a body
    is never written before those of the fragments ahead of it, and the
    handler returns when, and only when, every fetch has completed. *)
Theorem ServeHTTP_streams_fetched_prefix (s : Server)
    (get : string -> option (list byte)) (world : World)
    (w : viewproxy.ResponseWriter) (path : string)
    (route : viewproxy_route.Route) (parameters : gmap string string)
    (target : net_url.URL) (bodies : list (list byte)) :
  viewproxy_route.matchingRoute (routes s) path = Ret (Some (route, parameters)) ->
  url_Parse (Target s) = Some target ->
  let urls :=
    (fun f => url_String
                {| net_url.Prefix := net_url.Prefix target;
                   net_url.Path := net_url.Path target;
                   net_url.RawQuery :=
                     Values_Encode
                       (fragment_query (viewproxy_route.Path f) parameters) |})
      <$> viewproxy_route.fragments route in
  Forall2 (fun fragmentUrl content => get fragmentUrl = Some content) urls bodies ->
  exists k w',
    ServeHTTP s get world w path
    = (LogHandling path :: fetch_log (elapsed world) urls (completion world),
       if decide (k = length urls) then Responded w' else Waiting w') /\
    (k <= length urls)%nat /\
    viewproxy.Written w' = viewproxy.Written w ++ concat (take k bodies) /\
    viewproxy.WHeader w' = viewproxy.WHeader w /\
    (forall j, (j < k)%nat -> j ∈ completion world) /\
    ((k < length urls)%nat -> k ∉ completion world).
Proof.
  intros Hroute Htarget urls Hget.
  unfold ServeHTTP. rewrite Hroute, (streaming_urls _ _ _ _ Htarget). fold urls.
  destruct (run_in_order get (elapsed world) urls bodies Hget
              (viewproxy.Written w) (viewproxy.WHeader w) (completion world)
              0 ∅ w [LogHandling path])
    as (k & w' & Hrun & Hk & Hw & Hh & Hnone & Hall); try done.
  { lia. }
  { cbn. by rewrite app_nil_r. }
  { intros j Hj. lia. }
  rewrite Nat.sub_0_r in Hrun. exists k, w'. rewrite Hrun. split.
  - cbn [app]. f_equal. destruct (decide (k = length urls)) as [->|Hne].
    + by rewrite Nat.sub_diag.
    + destruct (length urls - k)%nat eqn:E; [lia|done].
  - split; [done|]. split; [done|]. split; [done|]. split.
    + intros j Hj. destruct (Hall j Hj) as [?|[? Hin]]; [done|].
      by rewrite lookup_empty in Hin.
    + intros Hlt. by destruct (Hnone Hlt).
Qed.

(** Once every fetch has completed, in whatever order, the handler has
    written the fragment bodies in route order and has returned; a route
    without fragments is answered with an empty body. *)
Theorem ServeHTTP_streams_in_route_order (s : Server)
    (get : string -> option (list byte)) (world : World)
    (w : viewproxy.ResponseWriter) (path : string)
    (route : viewproxy_route.Route) (parameters : gmap string string)
    (target : net_url.URL) (bodies : list (list byte)) :
  viewproxy_route.matchingRoute (routes s) path = Ret (Some (route, parameters)) ->
  url_Parse (Target s) = Some target ->
  let urls :=
    (fun f => url_String
                {| net_url.Prefix := net_url.Prefix target;
                   net_url.Path := net_url.Path target;
                   net_url.RawQuery :=
                     Values_Encode
                       (fragment_query (viewproxy_route.Path f) parameters) |})
      <$> viewproxy_route.fragments route in
  Forall2 (fun fragmentUrl content => get fragmentUrl = Some content) urls bodies ->
  completion world ≡ₚ seq 0 (length urls) ->
  exists w',
    ServeHTTP s get world w path
    = (LogHandling path :: fetch_log (elapsed world) urls (completion world),
       Responded w') /\
    viewproxy.Written w' = viewproxy.Written w ++ concat bodies /\
    viewproxy.WHeader w' = viewproxy.WHeader w.
Proof.
  intros Hroute Htarget urls Hget Hperm.
  unfold ServeHTTP. rewrite Hroute, (streaming_urls _ _ _ _ Htarget). fold urls.
  destruct (run_in_order get (elapsed world) urls bodies Hget
              (viewproxy.Written w) (viewproxy.WHeader w) (completion world)
              0 ∅ w [LogHandling path])
    as (k & w' & Hrun & Hk & Hw & Hh & Hnone & Hall); try done.
  { lia. }
  { cbn. by rewrite app_nil_r. }
  { intros j Hj. lia. }
  rewrite Nat.sub_0_r in Hrun.
  assert (k = length urls) as ->.
  { destruct (decide (k < length urls)%nat) as [Hlt|]; [|lia].
    destruct (Hnone Hlt) as [Hnot _]. destruct Hnot. rewrite Hperm.
    apply elem_of_seq. lia. }
  rewrite Nat.sub_diag in Hrun. exists w'. rewrite Hrun. split; [done|].
  split; [|done]. rewrite Hw, take_ge; [done|].
  by rewrite <- (Forall2_length _ _ _ Hget).
Qed.

End StreamingHandler.

Section StreamingFailure.

Import server.
Context {lib : StdLib}.

Lemma run_panics (get : string -> option (list byte)) (durations : nat -> Z)
    (urls : list string) (events : list nat) :
  forall channels sent w log,
    (exists i fragmentUrl,
        i ∈ events /\ urls !! i = Some fragmentUrl /\ get fragmentUrl = None) ->
    exists log',
      run get durations urls events channels sent w log
      = (log', Panicked "nil pointer dereference").
Proof.
  induction events as [|e events IH]; intros channels sent w log
    (i & fragmentUrl & Hin & Hurl & Hget).
  - by apply elem_of_nil in Hin.
  - cbn [run]. destruct (urls !! e) as [u|] eqn:Hu.
    + destruct (get u) as [content|] eqn:Hc; [|by eexists].
      destruct (receive channels (<[e:=content]> sent) w) as [channels' w'].
      apply IH. exists i, fragmentUrl. apply elem_of_cons in Hin as [->|Hin].
      * congruence.
      * done.
    + apply IH. exists i, fragmentUrl. apply elem_of_cons in Hin as [->|Hin].
      * congruence.
      * done.
Qed.

(** A fetch that fails crashes the process: whenever one of the fetches
    that complete gets no response, the handler ends in the nil
    dereference of [resp.Body], whatever the other fetches return. *)
Theorem ServeHTTP_failed_fetch_panics (s : Server)
    (get : string -> option (list byte)) (world : World)
    (w : viewproxy.ResponseWriter) (path : string)
    (route : viewproxy_route.Route) (parameters : gmap string string)
    (target : net_url.URL) (i : nat) (fragment : viewproxy_route.Fragment) :
  viewproxy_route.matchingRoute (routes s) path = Ret (Some (route, parameters)) ->
  url_Parse (Target s) = Some target ->
  i ∈ completion world ->
  viewproxy_route.fragments route !! i = Some fragment ->
  get (url_String
         {| net_url.Prefix := net_url.Prefix target;
            net_url.Path := net_url.Path target;
            net_url.RawQuery :=
              Values_Encode
                (fragment_query (viewproxy_route.Path fragment) parameters) |})
  = None ->
  exists log,
    ServeHTTP s get world w path = (log, Panicked "nil pointer dereference").
Proof.
  intros Hroute Htarget Hin Hfragment Hget.
  unfold ServeHTTP. rewrite Hroute, (streaming_urls _ _ _ _ Htarget).
  apply run_panics. eexists i, _. split; [done|]. split; [|exact Hget].
  by rewrite list_lookup_fmap, Hfragment.
Qed.

End StreamingFailure.

Section StreamingHandlerExamples.

Import server.

Lemma ServeHTTP_streams_fetched_prefix_witness :
  let world := {| completion := [1%nat]; elapsed := fun _ => 0 |} in
  let urls := ["http://localhost:3000?fragment=header&name=world";
               "http://localhost:3000?fragment=body&name=world"] in
  let bodies := [bytes_of "<h1>hi</h1>"; bytes_of "<p>world</p>"] in
  exists k w',
    ServeHTTP (lib := testlib.lib) testlib.streaming_server
              testlib.streaming_upstream world testlib.blank_writer "/hello/world"
    = (LogHandling "/hello/world" :: fetch_log (elapsed world) urls (completion world),
       if decide (k = length urls) then Responded w' else Waiting w') /\
    (k <= length urls)%nat /\
    viewproxy.Written w'
    = viewproxy.Written testlib.blank_writer ++ concat (take k bodies) /\
    viewproxy.WHeader w' = viewproxy.WHeader testlib.blank_writer /\
    (forall j, (j < k)%nat -> j ∈ completion world) /\
    ((k < length urls)%nat -> k ∉ completion world).
Proof.
  intros world urls bodies.
  refine (ServeHTTP_streams_fetched_prefix (lib := testlib.lib)
           testlib.streaming_server testlib.streaming_upstream world
           testlib.blank_writer "/hello/world"
           (viewproxy_route.newRoute "/hello/:name" (viewproxy_route.NewFragment "")
              [viewproxy_route.NewFragment "header";
               viewproxy_route.NewFragment "body"])
           {["name" := "world"]}
           {| net_url.Prefix := "http://localhost:3000"; net_url.Path := "";
              net_url.RawQuery := "" |}
           bodies _ _ _).
  - vm_compute. reflexivity.
  - vm_compute. reflexivity.
  - repeat (constructor; [vm_compute; reflexivity|]). constructor.
Defined.

(** With only the second fetch completed nothing has been written and the
    handler is waiting on the first channel. *)
Example ServeHTTP_waits_for_first_fragment :
  ServeHTTP (lib := testlib.lib) testlib.streaming_server
            testlib.streaming_upstream
            {| completion := [1%nat]; elapsed := fun _ => 0 |}
            testlib.blank_writer "/hello/world"
  = ([LogHandling "/hello/world";
      LogFetched "http://localhost:3000?fragment=body&name=world" 0],
     Waiting testlib.blank_writer).
Proof. vm_compute. reflexivity. Qed.

Lemma ServeHTTP_streams_in_route_order_witness :
  let world := {| completion := [1%nat; 0%nat]; elapsed := fun _ => 0 |} in
  let urls := ["http://localhost:3000?fragment=header&name=world";
               "http://localhost:3000?fragment=body&name=world"] in
  let bodies := [bytes_of "<h1>hi</h1>"; bytes_of "<p>world</p>"] in
  exists w',
    ServeHTTP (lib := testlib.lib) testlib.streaming_server
              testlib.streaming_upstream world testlib.blank_writer "/hello/world"
    = (LogHandling "/hello/world" :: fetch_log (elapsed world) urls (completion world),
       Responded w') /\
    viewproxy.Written w' = viewproxy.Written testlib.blank_writer ++ concat bodies /\
    viewproxy.WHeader w' = viewproxy.WHeader testlib.blank_writer.
Proof.
  intros world urls bodies.
  refine (ServeHTTP_streams_in_route_order (lib := testlib.lib)
           testlib.streaming_server testlib.streaming_upstream world
           testlib.blank_writer "/hello/world"
           (viewproxy_route.newRoute "/hello/:name" (viewproxy_route.NewFragment "")
              [viewproxy_route.NewFragment "header";
               viewproxy_route.NewFragment "body"])
           {["name" := "world"]}
           {| net_url.Prefix := "http://localhost:3000"; net_url.Path := "";
              net_url.RawQuery := "" |}
           bodies _ _ _ _).
  - vm_compute. reflexivity.
  - vm_compute. reflexivity.
  - repeat (constructor; [vm_compute; reflexivity|]). constructor.
  - apply Permutation_swap.
Defined.

Lemma ServeHTTP_failed_fetch_panics_witness :
  exists log,
    ServeHTTP (lib := testlib.lib) testlib.streaming_server
              (testlib.table_get
                 [("http://localhost:3000?fragment=header&name=world", "<h1>hi</h1>")])
              {| completion := [0%nat; 1%nat]; elapsed := fun _ => 0 |}
              testlib.blank_writer "/hello/world"
    = (log, Panicked "nil pointer dereference").
Proof.
  refine (ServeHTTP_failed_fetch_panics (lib := testlib.lib)
            testlib.streaming_server _ _ testlib.blank_writer "/hello/world"
            (viewproxy_route.newRoute "/hello/:name" (viewproxy_route.NewFragment "")
               [viewproxy_route.NewFragment "header";
                viewproxy_route.NewFragment "body"])
            {["name" := "world"]}
            {| net_url.Prefix := "http://localhost:3000"; net_url.Path := "";
               net_url.RawQuery := "" |}
            1%nat (viewproxy_route.NewFragment "body") _ _ _ _ _).
  - vm_compute. reflexivity.
  - vm_compute. reflexivity.
  - apply (bool_decide_unpack _). vm_compute. reflexivity.
  - reflexivity.
  - vm_compute. reflexivity.
Defined.

End StreamingHandlerExamples.

Section SigningExtras.

Import multiplexer.
Context {lib : StdLib}.

(** The headers a fetch goroutine sends. Without secret they are the
    request's own. With a secret, [Authorization] and
    [X-Authorization-Time] hold one value each, whatever the request had
    under these names, and every other header is the request's; the only
    failure is the panic on a fragment URL that does not parse. *)
Theorem task_headers_sign_and_keep_the_rest (r : Request) (w : World)
    (i : nat) (f : fragment) :
  match task_headers r w i f with
  | Ret headers =>
      (HmacSecret r = "" -> headers = Header r) /\
      (HmacSecret r <> "" ->
       (exists signature, headers !! "Authorization" = Some [signature]) /\
       headers !! "X-Authorization-Time" = Some [fmt.Sprintf_d (now w i)] /\
       forall name, name <> "Authorization" -> name <> "X-Authorization-Time" ->
                    headers !! name = Header r !! name)
  | Panic _ => HmacSecret r <> "" /\ url_Parse (url f) = None
  end.
Proof.
  unfold task_headers.
  destruct (String.eqb (HmacSecret r) "") eqn:E; cbn [negb].
  - apply String.eqb_eq in E. split; [done|]. by intros [].
  - apply String.eqb_neq in E.
    destruct (url_Parse (url f)) as [u|] eqn:Hu.
    + rewrite (headersWithHmac_parsed _ _ _ _ Hu). split; [done|]. intros _.
      split; [|split].
      * eexists. rewrite lookup_insert_ne by done. by rewrite lookup_insert_eq.
      * by rewrite lookup_insert_eq.
      * intros name H1 H2. by rewrite !lookup_insert_ne.
    + unfold headersWithHmac, pathFromFullUrl. rewrite Hu. by cbn.
Qed.

End SigningExtras.
